(** * StockTracker: the metrics computations of [dashboard.py]

    A shallow embedding of the numerical part of [dashboard.py]
    ([get_data], the weight check of the sidebar and the portfolio loop)
    and the properties of the specification checked against it.

    Numbers.  The program computes on IEEE-754 doubles through pandas.  The
    model keeps the special values the program's behaviour depends on (NaN as
    the "missing" marker of pandas, the two infinities produced by a division
    by zero) and computes exactly, on rationals, on the finite values.  Zero
    is unsigned and nothing is rounded: every result below is a statement
    about this exact-arithmetic reading of the code.  The one exception is
    the weight check of the sidebar, [abs(sum(weights) - 1) > 0.01]: its
    outcome at the edge of the tolerance is decided by rounding, so it is
    computed on binary64 values, the kernel's primitive floats.

    pandas.  The library calls ([rolling(w).mean()], [pct_change], [diff],
    [cumprod], [cummax], [where], [mean], [std] and the index alignment of
    Series arithmetic) are modelled after their documented behaviour with the
    default arguments the program uses ([skipna=True], [ddof=1],
    [min_periods=window]). *)

From Stdlib Require Import String.
From Stdlib Require Import Floats.
From Stdlib Require Import QArith Qabs ZArith List Lia Lqa Bool Setoid Morphisms.
Import ListNotations.
Local Open Scope Q_scope.

(* Decimal literals of doubles stand for the nearest double, as Python's
   [float] reads them. *)
#[local] Set Warnings "-inexact-float".

(** ** Extended numbers *)

Inductive F : Type :=
| NaN
| PInf
| NInf
| Fin (q : Q).

Declare Scope F_scope.
Delimit Scope F_scope with F.
Bind Scope F_scope with F.

(** Equality of results up to the representation of a rational. *)
Definition Feq (x y : F) : Prop :=
  match x, y with
  | NaN, NaN => True
  | PInf, PInf => True
  | NInf, NInf => True
  | Fin a, Fin b => a == b
  | _, _ => False
  end.

Definition Feqb (x y : F) : bool :=
  match x, y with
  | NaN, NaN => true
  | PInf, PInf => true
  | NInf, NInf => true
  | Fin a, Fin b => Qeq_bool a b
  | _, _ => false
  end.

Infix "=f=" := Feq (at level 70, no associativity).

Definition Fopp (x : F) : F :=
  match x with
  | NaN => NaN
  | PInf => NInf
  | NInf => PInf
  | Fin a => Fin (- a)
  end.

Definition Fadd (x y : F) : F :=
  match x, y with
  | NaN, _ | _, NaN => NaN
  | PInf, NInf | NInf, PInf => NaN
  | PInf, _ | _, PInf => PInf
  | NInf, _ | _, NInf => NInf
  | Fin a, Fin b => Fin (a + b)
  end.

Definition Fsub (x y : F) : F := Fadd x (Fopp y).

(** An infinity scaled by a finite factor: the sign of the factor decides,
    and [inf * 0] is NaN. *)
Definition Finf_scale (pos : bool) (a : Q) : F :=
  match a ?= 0 with
  | Gt => if pos then PInf else NInf
  | Lt => if pos then NInf else PInf
  | Eq => NaN
  end.

Definition Fmul (x y : F) : F :=
  match x, y with
  | NaN, _ | _, NaN => NaN
  | PInf, PInf | NInf, NInf => PInf
  | PInf, NInf | NInf, PInf => NInf
  | PInf, Fin a | Fin a, PInf => Finf_scale true a
  | NInf, Fin a | Fin a, NInf => Finf_scale false a
  | Fin a, Fin b => Fin (a * b)
  end.

(** Division.  A finite non-zero value divided by zero is an infinity, [0/0]
    is NaN, a finite value divided by an infinity is zero. *)
Definition Fdiv (x y : F) : F :=
  match x, y with
  | NaN, _ | _, NaN => NaN
  | Fin a, Fin b =>
      if Qeq_bool b 0 then Finf_scale true a else Fin (a / b)
  | Fin _, _ => Fin 0
  | PInf, Fin b => if Qle_bool 0 b then PInf else NInf
  | NInf, Fin b => if Qle_bool 0 b then NInf else PInf
  | _, _ => NaN
  end.

Infix "+" := Fadd : F_scope.
Infix "-" := Fsub : F_scope.
Infix "*" := Fmul : F_scope.
Infix "/" := Fdiv : F_scope.
Notation "- x" := (Fopp x) : F_scope.

(** Comparisons: every ordered comparison with NaN is false, [!=] with NaN
    is true. *)
Definition Fltb (x y : F) : bool :=
  match x, y with
  | NaN, _ | _, NaN => false
  | _, NInf => false
  | NInf, _ => true
  | PInf, _ => false
  | _, PInf => true
  | Fin a, Fin b => negb (Qle_bool b a)
  end.

Definition Fgtb (x y : F) : bool := Fltb y x.

Definition Fneb (x y : F) : bool :=
  match x, y with
  | NaN, _ | _, NaN => true
  | PInf, PInf | NInf, NInf => false
  | Fin a, Fin b => negb (Qeq_bool a b)
  | _, _ => true
  end.

Definition isnan (x : F) : bool :=
  match x with NaN => true | _ => false end.

Definition notna (x : F) : bool := negb (isnan x).

Definition isfinite (x : F) : bool :=
  match x with Fin _ => true | _ => false end.

Definition QofNat (n : nat) : Q := inject_Z (Z.of_nat n).

(** ** pandas Series operations

    A column is the list of its values in index order. *)

Definition Series := list F.

(** Element-wise arithmetic of two columns of one frame. *)
Definition zipWith (f : F -> F -> F) (xs ys : Series) : Series :=
  map (fun p => f (fst p) (snd p)) (combine xs ys).

(** [s.shift(1)]: every value moves one row down, the first row is NaN. *)
Definition shift (xs : Series) : Series :=
  firstn (length xs) (NaN :: xs).

(** [s.pct_change()] is [s / s.shift(1) - 1] (the closes hold no NaN, so the
    forward fill pandas applies first changes nothing). *)
Definition pct_change (xs : Series) : Series :=
  map (fun r => (r - Fin 1)%F) (zipWith Fdiv xs (shift xs)).

(** [s.diff()] is [s - s.shift(1)]. *)
Definition diff (xs : Series) : Series :=
  zipWith Fsub xs (shift xs).

(** [s.where(cond, other)]. *)
Definition Series_where (cond : F -> bool) (other : F) (xs : Series) : Series :=
  map (fun x => if cond x then x else other) xs.

(** [s.cumprod()] with [skipna=True]: a NaN row stays NaN and leaves the
    running product as it was. *)
Fixpoint cumprod_from (acc : F) (xs : Series) : Series :=
  match xs with
  | [] => []
  | x :: t =>
      if isnan x then NaN :: cumprod_from acc t
      else let acc' := (acc * x)%F in acc' :: cumprod_from acc' t
  end.

Definition cumprod (xs : Series) : Series := cumprod_from (Fin 1) xs.

Definition Fmax (a b : F) : F := if Fltb a b then b else a.

(** [s.cummax()] with [skipna=True]: the running maximum starts below every
    value, a NaN row stays NaN. *)
Fixpoint cummax_from (acc : F) (xs : Series) : Series :=
  match xs with
  | [] => []
  | x :: t =>
      if isnan x then NaN :: cummax_from acc t
      else let acc' := Fmax acc x in acc' :: cummax_from acc' t
  end.

Definition cummax (xs : Series) : Series := cummax_from NInf xs.

Definition Fsum (xs : Series) : F := fold_left Fadd xs (Fin 0).

(** Python's [sum] of a list of numbers. *)
Definition sum (ws : list Q) : Q := fold_left Qplus ws 0.

(** [s.mean()] with [skipna=True]; the mean of no value is [0/0], NaN. *)
Definition mean (xs : Series) : F :=
  let obs := filter notna xs in
  (Fsum obs / Fin (QofNat (length obs)))%F.

(** [s.var()] with [skipna=True] and [ddof=1]: NaN unless more than one value
    is present. *)
Definition var (xs : Series) : F :=
  let obs := filter notna xs in
  let n := length obs in
  if (n <=? 1)%nat then NaN
  else
    let avg := (Fsum obs / Fin (QofNat n))%F in
    let sqr := map (fun x => ((avg - x) * (avg - x))%F) obs in
    (Fsum sqr / Fin (QofNat (n - 1)))%F.

(** ** [rolling(w).mean()]

    The window holds the last [w] rows.  A row that is NaN or infinite is no
    observation, and with [min_periods = w] the mean is defined only when the
    window holds [w] observations. *)

Definition window_push (w : nat) (buf : Series) (x : F) : Series :=
  let b := buf ++ [x] in skipn (length b - w) b.

Definition window_mean (w : nat) (buf : Series) : F :=
  let obs := filter isfinite buf in
  if (w <=? length obs)%nat
  then (Fsum obs / Fin (QofNat (length obs)))%F
  else NaN.

Fixpoint rolling_mean_from (w : nat) (buf : Series) (xs : Series) : Series :=
  match xs with
  | [] => []
  | x :: t =>
      let b := window_push w buf x in
      window_mean w b :: rolling_mean_from w b t
  end.

Definition rolling_mean (w : nat) (xs : Series) : Series :=
  rolling_mean_from w [] xs.

(** ** [get_data] *)

(** One daily bar as the program uses it: the date and the close. *)
Abbreviation Bar := (Z * Q)%type.

Record DataFrame : Type := mkDataFrame {
  index : list Z;
  Close : Series;
  MA20 : Series;
  MA50 : Series;
  Returns : Series;
  Cumulative : Series;
  RSI : Series;
  Drawdown : Series;
  (** a scalar, broadcast by pandas to the whole column *)
  Sharpe : F
}.

Definition close_of (bars : list Bar) : Series := map (fun b => Fin (snd b)) bars.

Definition returns_of (close : Series) : Series := pct_change close.

Definition cumulative_of (returns : Series) : Series :=
  cumprod (map (fun r => (Fin 1 + r)%F) returns).

(** [gain = (delta.where(delta > 0, 0)).rolling(14).mean()] *)
Definition rsi_gain (close : Series) : Series :=
  let delta := diff close in
  rolling_mean 14 (Series_where (fun d => Fgtb d (Fin 0)) (Fin 0) delta).

(** [loss = (-delta.where(delta < 0, 0)).rolling(14).mean()] *)
Definition rsi_loss (close : Series) : Series :=
  let delta := diff close in
  rolling_mean 14 (map Fopp (Series_where (fun d => Fltb d (Fin 0)) (Fin 0) delta)).

(** [100 - (100 / (1 + rs))] *)
Definition rsi_of_rs (rs : F) : F := (Fin 100 - (Fin 100 / (Fin 1 + rs)))%F.

Definition rsi_of (close : Series) : Series :=
  let rs := zipWith Fdiv (rsi_gain close) (rsi_loss close) in
  map rsi_of_rs rs.

(** [(c - rolling_max) / rolling_max] with [rolling_max = c.cummax()] *)
Definition drawdown_of (cumulative : Series) : Series :=
  let rolling_max := cummax cumulative in
  zipWith Fdiv (zipWith Fsub cumulative rolling_max) rolling_max.

(** ** The square root

    [std] and [252**0.5] take a square root, the one operation of the program
    that leaves the rationals.  The development is parametric in the function
    [sqrtQ] standing for it on the non-negative finite values. *)

Section Engine.

Variable sqrtQ : Q -> Q.

Definition Fsqrt (x : F) : F :=
  match x with
  | NaN | NInf => NaN
  | PInf => PInf
  | Fin a => if Qle_bool 0 a then Fin (sqrtQ a) else NaN
  end.

(** [s.std()] is the square root of [s.var()]. *)
Definition std (xs : Series) : F := Fsqrt (var xs).

(** [mean_return / volatility * (252**0.5) if volatility != 0 else 0] *)
Definition sharpe_of (returns : Series) : F :=
  let mean_return := mean returns in
  let volatility := std returns in
  if Fneb volatility (Fin 0)
  then (mean_return / volatility * Fsqrt (Fin 252))%F
  else Fin 0.

(** [get_data]; the history the program downloads is the argument [bars],
    and the two window sizes are the sidebar's globals. *)
Definition get_data (ma20_window ma50_window : nat) (bars : list Bar) : DataFrame :=
  let close := close_of bars in
  let returns := returns_of close in
  let cumulative := cumulative_of returns in
  {| index := map fst bars;
     Close := close;
     MA20 := rolling_mean ma20_window close;
     MA50 := rolling_mean ma50_window close;
     Returns := returns;
     Cumulative := cumulative;
     RSI := rsi_of close;
     Drawdown := drawdown_of cumulative;
     Sharpe := sharpe_of returns |}.

(** ** The portfolio loop *)

(** The value of a Series at a date; a date its index lacks reads as NaN. *)
Definition lookup (d : Z) (idx : list Z) (vals : Series) : F :=
  match find (fun p => Z.eqb (fst p) d) (combine idx vals) with
  | Some p => snd p
  | None => NaN
  end.

(** A Series re-indexed on the dates [idx]: what an in-place operation and a
    column assignment keep of their right-hand side. *)
Definition reindex (idx : list Z) (idx' : list Z) (vals : Series) : Series :=
  map (fun d => lookup d idx' vals) idx.

(** [portfolio_data]: its index and its two columns. *)
Record PortfolioFrame : Type := mkPortfolioFrame {
  p_index : list Z;
  p_Cumulative : Series;
  p_Daily_Return : Series
}.

(** [portfolio_data.empty]: no column yet ([None]) or no row. *)
Definition frame_empty (st : option PortfolioFrame) : bool :=
  match st with
  | None => true
  | Some p => match p_index p with [] => true | _ :: _ => false end
  end.

(** One iteration of [for ticker, weight in zip(portfolio_tickers, weights)]. *)
Definition portfolio_step (w20 w50 : nat) (st : option PortfolioFrame)
    (tw : list Bar * Q) : option PortfolioFrame :=
  let df := get_data w20 w50 (fst tw) in
  let Weighted_Return := map (fun r => (r * Fin (snd tw))%F) (Returns df) in
  let factor := map (fun r => (Fin 1 + r)%F) Weighted_Return in
  match st with
  | Some p =>
      if frame_empty st
      then Some {| p_index := index df;
                   p_Cumulative := cumprod factor;
                   p_Daily_Return := Weighted_Return |}
      else Some {| p_index := p_index p;
                   p_Cumulative :=
                     zipWith Fmul (p_Cumulative p)
                       (reindex (p_index p) (index df) factor);
                   p_Daily_Return :=
                     zipWith Fadd (p_Daily_Return p)
                       (reindex (p_index p) (index df) Weighted_Return) |}
  | None =>
      Some {| p_index := index df;
              p_Cumulative := cumprod factor;
              p_Daily_Return := Weighted_Return |}
  end.

Definition portfolio_data (w20 w50 : nat) (items : list (list Bar * Q))
  : option PortfolioFrame :=
  fold_left (portfolio_step w20 w50) items None.

(** What the portfolio view derives from [portfolio_data]. *)
Record PortfolioMetrics : Type := mkPortfolioMetrics {
  pm_index : list Z;
  pm_Daily_Return : Series;
  pm_Cumulative : Series;
  pm_sharpe : F;
  pm_drawdown : Series
}.

(** Lines 172 to 177; without any ticker the frame has no column and the
    first column access raises ([None]). *)
Definition portfolio_metrics (w20 w50 : nat) (items : list (list Bar * Q))
  : option PortfolioMetrics :=
  match portfolio_data w20 w50 items with
  | None => None
  | Some p =>
      let mean_ret := mean (p_Daily_Return p) in
      let vol := std (p_Daily_Return p) in
      let sharpe :=
        if Fneb vol (Fin 0) then (mean_ret / vol * Fsqrt (Fin 252))%F
        else Fin 0 in
      let rolling_max := cummax (p_Cumulative p) in
      let drawdown :=
        zipWith Fdiv (zipWith Fsub (p_Cumulative p) rolling_max) rolling_max in
      Some {| pm_index := p_index p;
              pm_Daily_Return := p_Daily_Return p;
              pm_Cumulative := p_Cumulative p;
              pm_sharpe := sharpe;
              pm_drawdown := drawdown |}
  end.

(** ** The weights, the sidebar's check and the portfolio section

    The weights are the doubles that [float(w.strip())] reads, NaN and the
    infinities among them.  The check of line 68 is computed on doubles; the
    portfolio loop takes every weight at its exact value. *)

(** The exact value of a double. *)
Definition Fvalue (x : float) : F :=
  match Prim2SF x with
  | S754_zero _ => Fin 0
  | S754_infinity false => PInf
  | S754_infinity true => NInf
  | S754_nan => NaN
  | S754_finite s m e =>
      Fin (inject_Z (if s then Z.neg m else Z.pos m) * 2 ^ e)
  end.

(** The portfolio loop for weights of any value, finite or not;
    [portfolio_step] is its case of a finite weight. *)
Definition portfolio_step_F (w20 w50 : nat) (st : option PortfolioFrame)
    (tw : list Bar * F) : option PortfolioFrame :=
  let df := get_data w20 w50 (fst tw) in
  let Weighted_Return := map (fun r => (r * snd tw)%F) (Returns df) in
  let factor := map (fun r => (Fin 1 + r)%F) Weighted_Return in
  match st with
  | Some p =>
      if frame_empty st
      then Some {| p_index := index df;
                   p_Cumulative := cumprod factor;
                   p_Daily_Return := Weighted_Return |}
      else Some {| p_index := p_index p;
                   p_Cumulative :=
                     zipWith Fmul (p_Cumulative p)
                       (reindex (p_index p) (index df) factor);
                   p_Daily_Return :=
                     zipWith Fadd (p_Daily_Return p)
                       (reindex (p_index p) (index df) Weighted_Return) |}
  | None =>
      Some {| p_index := index df;
              p_Cumulative := cumprod factor;
              p_Daily_Return := Weighted_Return |}
  end.

Definition portfolio_data_F (w20 w50 : nat) (items : list (list Bar * F))
  : option PortfolioFrame :=
  fold_left (portfolio_step_F w20 w50) items None.

Definition portfolio_metrics_F (w20 w50 : nat) (items : list (list Bar * F))
  : option PortfolioMetrics :=
  match portfolio_data_F w20 w50 items with
  | None => None
  | Some p =>
      let mean_ret := mean (p_Daily_Return p) in
      let vol := std (p_Daily_Return p) in
      let sharpe :=
        if Fneb vol (Fin 0) then (mean_ret / vol * Fsqrt (Fin 252))%F
        else Fin 0 in
      let rolling_max := cummax (p_Cumulative p) in
      let drawdown :=
        zipWith Fdiv (zipWith Fsub (p_Cumulative p) rolling_max) rolling_max in
      Some {| pm_index := p_index p;
              pm_Daily_Return := p_Daily_Return p;
              pm_Cumulative := p_Cumulative p;
              pm_sharpe := sharpe;
              pm_drawdown := drawdown |}
  end.

(** The builtin [sum] on a list of doubles.  What it returns depends on the
    interpreter: the additions from the left, each rounded ([sum_left]
    below), and from CPython 3.12 on a compensated summation
    ([sum_compensated] below).  The development is parametric in it. *)
Variable float_sum : list float -> float.

(** [0.01], the double nearest to 1/100. *)
Definition tolerance : float := 0.01%float.

(** [abs(sum(weights) - 1) > 0.01], on doubles. *)
Definition weights_mismatch (weights : list float) : bool :=
  PrimFloat.ltb tolerance
    (PrimFloat.abs (PrimFloat.sub (float_sum weights) 1%float)).

Inductive Message : Type :=
| SidebarError (text : string).

(** What the sidebar shows for the weights. *)
Definition sidebar_weights (weights : list float) : list Message :=
  if weights_mismatch weights
  then [SidebarError "Weights must sum to 1"%string]
  else [].

Inductive PortfolioView : Type :=
| NotShown
| Raised
| Shown (m : PortfolioMetrics).

(** The portfolio part of the script: the messages the sidebar shows for the
    weights and the portfolio view.  With the view enabled and no ticker
    selected, the default weights [1/len(portfolio_tickers)] divide by zero
    and the script stops. *)
Definition portfolio_section (w20 w50 : nat) (enable_portfolio : bool)
    (portfolio_tickers : list (list Bar)) (weights : list float)
  : list Message * PortfolioView :=
  if enable_portfolio then
    match portfolio_tickers with
    | [] => ([], Raised)
    | _ :: _ =>
        (sidebar_weights weights,
         if (length weights =? length portfolio_tickers)%nat
         then match portfolio_metrics_F w20 w50
                      (combine portfolio_tickers (map Fvalue weights)) with
              | Some m => Shown m
              | None => Raised
              end
         else NotShown)
    end
  else ([], NotShown).

End Engine.

(** [sum] before CPython 3.12: the additions from the left, from [0]. *)
Definition sum_left (ws : list float) : float :=
  fold_left PrimFloat.add ws 0%float.

(** One step of the compensated summation of CPython 3.12: the running sum
    and the compensation. *)
Definition compensated_step (st : float * float) (x : float) : float * float :=
  let f_result := fst st in
  let c := snd st in
  let t := PrimFloat.add f_result x in
  if PrimFloat.leb (PrimFloat.abs x) (PrimFloat.abs f_result)
  then (t, PrimFloat.add c (PrimFloat.add (PrimFloat.sub f_result t) x))
  else (t, PrimFloat.add c (PrimFloat.add (PrimFloat.sub x t) f_result)).

Definition float_finite (x : float) : bool :=
  negb (PrimFloat.is_nan x) && negb (PrimFloat.is_infinity x).

(** [sum] from CPython 3.12 on: the first weight is added to [0], the others
    are summed with compensation, and a compensation that is finite and not
    zero is added at the end. *)
Definition sum_compensated (ws : list float) : float :=
  match ws with
  | [] => 0%float
  | x :: t =>
      let st := fold_left compensated_step t (PrimFloat.add 0%float x, 0%float) in
      if negb (PrimFloat.eqb (snd st) 0%float) && float_finite (snd st)
      then PrimFloat.add (fst st) (snd st)
      else fst st
  end.

(** A rational square root by Heron's iteration, to run the model. *)
Fixpoint heron (n : nat) (a x : Q) : Q :=
  match n with
  | O => x
  | S k => heron k a (Qred ((x + a / x) / 2))
  end.

Definition heron_sqrt (a : Q) : Q :=
  if Qeq_bool a 0 then 0 else heron 4 a (Qred (a + 1)).

(** Bars on consecutive days, from their closes. *)
Definition bars_of (closes : list Q) : list Bar :=
  combine (map Z.of_nat (seq 0 (length closes))) closes.

(** Series to run the model on. *)
Definition five_bars : list Bar := bars_of [100; 102; 101; 105; 107].

Definition two_bars : list Bar := bars_of [100; 110].

Definition flat_bars : list Bar := bars_of [5; 5; 5].

Definition rising_14_bars : list Bar :=
  bars_of [1; 2; 3; 4; 5; 6; 7; 8; 9; 10; 11; 12; 13; 14].

Definition flat_14_bars : list Bar :=
  bars_of [7; 7; 7; 7; 7; 7; 7; 7; 7; 7; 7; 7; 7; 7].

Definition growing_bars : list Bar := bars_of [100; 110; 121].

(** The same closes with the second day missing. *)
Definition gapped_bars : list Bar := [(0%Z, 100); (2%Z, 121)].


(** ** The rest of the script *)

(** The table of the stocks offered, in the order of the script. *)
Definition stock_options : list (string * string) :=
  [("Apple Inc."%string, "AAPL"%string);
   ("Microsoft Corporation"%string, "MSFT"%string);
   ("Tesla, Inc."%string, "TSLA"%string);
   ("Amazon.com, Inc."%string, "AMZN"%string);
   ("Alphabet Inc. (Google)"%string, "GOOGL"%string);
   ("NVIDIA Corporation"%string, "NVDA"%string);
   ("Meta Platforms, Inc."%string, "META"%string)].

(** [stock_options[name]]; a name that is no key raises ([None]). *)
Definition stock_option (name : string) : option string :=
  match find (fun p => String.eqb (fst p) name) stock_options with
  | Some p => Some (snd p)
  | None => None
  end.

(** [[stock_options[name] for name in names]] *)
Fixpoint tickers_of (names : list string) : option (list string) :=
  match names with
  | [] => Some []
  | name :: t =>
      match stock_option name with
      | None => None
      | Some ticker =>
          match tickers_of t with
          | None => None
          | Some tickers => Some (ticker :: tickers)
          end
      end
  end.

(** [len(portfolio_tickers)] as a double. *)
Definition float_of_nat (n : nat) : float :=
  PrimFloat.of_uint63 (Uint63.of_Z (Z.of_nat n)).

(** [[1/len(portfolio_tickers)] * len(portfolio_tickers)]; without a ticker
    the division raises ([None]). *)
Definition default_weights {A : Type} (portfolio_tickers : list A)
  : option (list float) :=
  match portfolio_tickers with
  | [] => None
  | _ :: _ =>
      let n := length portfolio_tickers in
      Some (repeat (PrimFloat.div 1%float (float_of_nat n)) n)
  end.

(** Weights to run the check on, as the sidebar's text gives them. *)
Definition weights_thirds : list float := [0.33; 0.33; 0.33]%float.

Definition weights_exact : list float := [0.5; 0.3; 0.2]%float.

Definition weights_over : list float := [0.5; 0.3; 0.3]%float.

Definition weights_edge : list float := [0.1; 0.2; 0.3; 0.39]%float.

Definition Fmin (a b : F) : F := if Fltb b a then b else a.

(** [s.min()] with [skipna=True]: the least of the values that are not NaN,
    and NaN when there is none. *)
Definition Series_min (xs : Series) : F :=
  match filter notna xs with
  | [] => NaN
  | x :: t => fold_left Fmin t x
  end.

(** [data['Drawdown'].min()], shown as the maximal drawdown of a stock. *)
Definition max_drawdown (df : DataFrame) : F := Series_min (Drawdown df).

(** [drawdown.min()], shown as the maximal drawdown of the portfolio. *)
Definition portfolio_max_drawdown (m : PortfolioMetrics) : F :=
  Series_min (pm_drawdown m).

(** ** Functions used to state the results *)

(** The product of a list of values, taken from the left as [cumprod]
    takes it. *)
Definition Fprod (xs : Series) : F := fold_left Fmul xs (Fin 1).

(** The simple returns [close[i] / close[i-1] - 1] of the closes that follow
    the close [prev]. *)
Fixpoint simple_returns (prev : Q) (closes : list Q) : list Q :=
  match closes with
  | [] => []
  | c :: t => (c / prev + - (1)) :: simple_returns c t
  end.

(** The differences [close[i] - close[i-1]] of the closes that follow the
    close [prev]. *)
Fixpoint differences (prev : Q) (closes : list Q) : list Q :=
  match closes with
  | [] => []
  | c :: t => (c + - prev) :: differences c t
  end.

Definition positive_closes (bars : list Bar) : Prop :=
  Forall (fun b => 0 < snd b) bars.

(** A value of a column of growth factors: missing, or finite and positive. *)
Definition nan_or_positive (x : F) : Prop :=
  x = NaN \/ exists q, x = Fin q /\ 0 < q.

(** [df['Returns'] * weight], the weighted returns of one constituent of a
    portfolio. *)
Definition weighted_return (sqrtQ : Q -> Q) (w20 w50 : nat)
    (item : list Bar * Q) : Series :=
  map (fun r => (r * Fin (snd item))%F)
    (Returns (get_data sqrtQ w20 w50 (fst item))).

(** Two series of closes with the same ratios to their first close. *)
Definition same_ratios (closes closes' : list Q) : Prop :=
  match closes, closes' with
  | [], [] => True
  | c0 :: cs, c0' :: cs' => Forall2 (fun c c' => c / c0 == c' / c0') cs cs'
  | _, _ => False
  end.

(** A portfolio frame over the dates [idx]: its index is [idx] and both
    columns have one row per date. *)
Definition frame_on (idx : list Z) (p : PortfolioFrame) : Prop :=
  p_index p = idx
  /\ length (p_Cumulative p) = length idx
  /\ length (p_Daily_Return p) = length idx.

(** What the specification asks of a moving average of window [w] over the
    closes: the number of defined rows, the undefined leading rows and the
    value of a defined row. *)
Definition moving_average_spec (w : nat) (closes : list Q) (ma : Series) : Prop :=
  Z.of_nat (length (filter notna ma))
  = Z.max 0 (Z.of_nat (length closes) - Z.of_nat w + 1)
  /\ (forall i, (i < length closes)%nat -> (i + 1 < w)%nat ->
       nth_error ma i = Some NaN)
  /\ (forall i, (i < length closes)%nat -> (w <= i + 1)%nat ->
       nth_error ma i
       = Some (Fin (sum (firstn w (skipn (i + 1 - w) closes)) / QofNat w))).

(** The two parts [where] keeps of a difference: the gain and the loss. *)
Definition gain_part (d : Q) : Q := if negb (Qle_bool d 0) then d else 0.

Definition loss_part (d : Q) : Q := - (if negb (Qle_bool 0 d) then d else 0).

(** The two columns the rolling means of the RSI run over, for a history of
    finite closes; the first row, whose difference is NaN, holds 0. *)
Definition gains (closes : list Q) : list Q :=
  match closes with
  | [] => []
  | c0 :: cs => 0 :: map gain_part (differences c0 cs)
  end.

Definition losses (closes : list Q) : list Q :=
  match closes with
  | [] => []
  | c0 :: cs => - 0 :: map loss_part (differences c0 cs)
  end.

(** Every defined row of a column lies between [lo] and [hi]. *)
Definition forall_rows_between (lo hi : Q) (xs : Series) : Prop :=
  forall i m, nth_error xs i = Some (Fin m) -> lo <= m <= hi.

(** The mean of the [w] values that end at row [i]. *)
Definition window_average (w i : nat) (qs : list Q) : Q :=
  sum (firstn w (skipn (i + 1 - w) qs)) / QofNat w.

(** Closes that rise, or fall, from every bar to the next. *)
Definition rising (closes : list Q) : Prop :=
  match closes with
  | [] => True
  | c0 :: cs => Forall (fun d => 0 < d) (differences c0 cs)
  end.

Definition falling (closes : list Q) : Prop :=
  match closes with
  | [] => True
  | c0 :: cs => Forall (fun d => d < 0) (differences c0 cs)
  end.

(** * Properties *)

(** ** Extended numbers *)

Lemma Feq_refl x : x =f= x.
Proof. destruct x; simpl; auto; reflexivity. Qed.

Lemma Feq_sym x y : x =f= y -> y =f= x.
Proof. destruct x, y; simpl; auto; intros H; symmetry; exact H. Qed.

Lemma Feq_trans x y z : x =f= y -> y =f= z -> x =f= z.
Proof.
  destruct x, y, z; simpl; auto; try contradiction.
  intros H1 H2; rewrite H1; exact H2.
Qed.

#[export] Instance Feq_Equivalence : Equivalence Feq.
Proof.
  split; [exact Feq_refl | exact Feq_sym | exact Feq_trans].
Qed.

Lemma Feqb_spec x y : Feqb x y = true <-> x =f= y.
Proof.
  destruct x, y; simpl; try (split; [discriminate | contradiction]);
    try (split; auto).
  - apply Qeq_bool_iff.
  - apply Qeq_bool_iff.
Qed.

Lemma Qeq_bool_false a b : ~ a == b -> Qeq_bool a b = false.
Proof.
  intros H. destruct (Qeq_bool a b) eqn:E; auto.
  apply Qeq_bool_iff in E. contradiction.
Qed.

Lemma Qle_bool_false a b : b < a -> Qle_bool a b = false.
Proof.
  intros H. destruct (Qle_bool a b) eqn:E; auto.
  apply Qle_bool_iff in E. exfalso. lra.
Qed.

Lemma Qle_bool_true a b : a <= b -> Qle_bool a b = true.
Proof. intros H. apply Qle_bool_iff. exact H. Qed.

Lemma Fdiv_fin a b : ~ b == 0 -> (Fin a / Fin b)%F = Fin (a / b).
Proof. intros H. simpl. rewrite (Qeq_bool_false _ _ H). reflexivity. Qed.

Lemma QofNat_pos n : (0 < n)%nat -> 0 < QofNat n.
Proof.
  intros H. unfold QofNat, Qlt. simpl. lia.
Qed.

Lemma Fsum_from_fin (qs : list Q) (a : Q) :
  fold_left Fadd (map Fin qs) (Fin a) = Fin (fold_left Qplus qs a).
Proof.
  revert a. induction qs as [|q qs IH]; intros a; simpl; auto.
Qed.

Lemma Fsum_fin (qs : list Q) : Fsum (map Fin qs) = Fin (sum qs).
Proof. apply Fsum_from_fin. Qed.

Lemma filter_isfinite_fin (qs : list Q) :
  filter isfinite (map Fin qs) = map Fin qs.
Proof. induction qs as [|q qs IH]; simpl; congruence. Qed.

Lemma filter_notna_fin (qs : list Q) :
  filter notna (map Fin qs) = map Fin qs.
Proof. induction qs as [|q qs IH]; simpl; congruence. Qed.

(** The operations respect [=f=]. *)

#[export] Instance Fopp_Proper : Proper (Feq ==> Feq) Fopp.
Proof.
  intros [| | |a] [| | |b] H; simpl in *; auto; try contradiction.
  rewrite H. reflexivity.
Qed.

#[export] Instance Fadd_Proper : Proper (Feq ==> Feq ==> Feq) Fadd.
Proof.
  intros [| | |a] [| | |a'] Ha [| | |b] [| | |b'] Hb; simpl in *; auto;
    try contradiction.
  rewrite Ha, Hb. reflexivity.
Qed.

#[export] Instance Fsub_Proper : Proper (Feq ==> Feq ==> Feq) Fsub.
Proof. intros x x' Hx y y' Hy. unfold Fsub. rewrite Hx, Hy. reflexivity. Qed.

#[export] Instance Finf_scale_Proper (pos : bool) :
  Proper (Qeq ==> Feq) (Finf_scale pos).
Proof.
  intros a a' Ha. unfold Finf_scale. rewrite Ha.
  destruct (a' ?= 0), pos; simpl; auto.
Qed.

#[export] Instance Fmul_Proper : Proper (Feq ==> Feq ==> Feq) Fmul.
Proof.
  intros [| | |a] [| | |a'] Ha [| | |b] [| | |b'] Hb; simpl in *; auto;
    try contradiction; try (apply Finf_scale_Proper; assumption).
  rewrite Ha, Hb. reflexivity.
Qed.

#[export] Instance Fdiv_Proper : Proper (Feq ==> Feq ==> Feq) Fdiv.
Proof.
  intros [| | |a] [| | |a'] Ha [| | |b] [| | |b'] Hb; simpl in *; auto;
    try contradiction; try reflexivity.
  - rewrite Hb. destruct (Qle_bool 0 b'); simpl; auto.
  - rewrite Hb. destruct (Qle_bool 0 b'); simpl; auto.
  - rewrite Hb. destruct (Qeq_bool b' 0) eqn:E.
    + apply Finf_scale_Proper. exact Ha.
    + simpl. rewrite Ha, Hb. reflexivity.
Qed.

#[export] Instance Fltb_Proper : Proper (Feq ==> Feq ==> eq) Fltb.
Proof.
  intros [| | |a] [| | |a'] Ha [| | |b] [| | |b'] Hb; simpl in *; auto;
    try contradiction.
  rewrite Ha, Hb. reflexivity.
Qed.

#[export] Instance isnan_Proper : Proper (Feq ==> eq) isnan.
Proof. intros [| | |a] [| | |a'] Ha; simpl in *; auto; contradiction. Qed.

#[export] Instance Fmax_Proper : Proper (Feq ==> Feq ==> Feq) Fmax.
Proof.
  intros x x' Hx y y' Hy. unfold Fmax. rewrite (Fltb_Proper _ _ Hx _ _ Hy).
  destruct (Fltb x' y'); assumption.
Qed.

Lemma zipWith_Feq (f : F -> F -> F) (xs xs' ys ys' : Series) :
  Proper (Feq ==> Feq ==> Feq) f ->
  Forall2 Feq xs xs' -> Forall2 Feq ys ys' ->
  Forall2 Feq (zipWith f xs ys) (zipWith f xs' ys').
Proof.
  intros Hf Hx. revert ys ys'. unfold zipWith.
  induction Hx as [|x x' xs xs' Hxx Hxs IH]; intros ys ys' Hy.
  - constructor.
  - destruct Hy as [|y y' ys ys' Hyy Hys]; [constructor|].
    cbn [combine map fst snd]. constructor; [apply Hf; assumption|].
    apply IH. exact Hys.
Qed.

Lemma cummax_from_Feq (xs xs' : Series) (acc acc' : F) :
  Forall2 Feq xs xs' -> acc =f= acc' ->
  Forall2 Feq (cummax_from acc xs) (cummax_from acc' xs').
Proof.
  intros Hx. revert acc acc'.
  induction Hx as [|x x' xs xs' Hxx Hxs IH]; intros acc acc' Hacc.
  - constructor.
  - cbn [cummax_from]. rewrite (isnan_Proper _ _ Hxx).
    destruct (isnan x').
    + constructor; [exact I | apply IH; exact Hacc].
    + assert (Hm : Fmax acc x =f= Fmax acc' x')
        by (apply Fmax_Proper; assumption).
      constructor; [exact Hm | apply IH; exact Hm].
Qed.

Lemma drawdown_of_Feq (xs xs' : Series) :
  Forall2 Feq xs xs' -> Forall2 Feq (drawdown_of xs) (drawdown_of xs').
Proof.
  intros H. unfold drawdown_of, cummax.
  assert (Hm : Forall2 Feq (cummax_from NInf xs) (cummax_from NInf xs'))
    by (apply cummax_from_Feq; [exact H | exact I]).
  apply zipWith_Feq; [exact Fdiv_Proper | | exact Hm].
  apply zipWith_Feq; [exact Fsub_Proper | exact H | exact Hm].
Qed.

(** ** The rolling mean *)

Lemma window_push_skipn (w : nat) (pre : Series) (x : F) :
  window_push w (skipn (length pre - w) pre) x
  = skipn (length (pre ++ [x]) - w) (pre ++ [x]).
Proof.
  unfold window_push.
  rewrite !length_app, length_skipn. simpl.
  destruct (Nat.le_gt_cases (length pre) w) as [Hle | Hgt].
  - replace (length pre - w)%nat with 0%nat by lia. simpl.
    replace (length pre - 0 + 1 - w)%nat with (length pre + 1 - w)%nat by lia.
    reflexivity.
  - replace (length pre - (length pre - w) + 1 - w)%nat with 1%nat by lia.
    replace (length pre + 1 - w)%nat with (1 + (length pre - w))%nat by lia.
    rewrite <- skipn_skipn.
    rewrite (skipn_app (length pre - w) pre [x]).
    replace (length pre - w - length pre)%nat with 0%nat by lia.
    reflexivity.
Qed.

Lemma rolling_mean_from_nth (w : nat) (xs pre : Series) (i : nat) :
  (i < length xs)%nat ->
  nth_error (rolling_mean_from w (skipn (length pre - w) pre) xs) i
  = Some (window_mean w
            (skipn (length pre + (i + 1) - w) (pre ++ firstn (i + 1) xs))).
Proof.
  revert pre i. induction xs as [|x xs IH]; intros pre i Hi; simpl in Hi.
  - lia.
  - cbn [rolling_mean_from]. rewrite window_push_skipn.
    destruct i as [|i].
    + cbn [nth_error]. rewrite length_app. simpl. reflexivity.
    + cbn [nth_error]. rewrite IH by lia.
      rewrite length_app. simpl length.
      replace (S i + 1)%nat with (S (i + 1)) by lia.
      cbn [firstn]. rewrite <- app_assoc. simpl app.
      do 3 f_equal. lia.
Qed.

Lemma rolling_mean_nth (w : nat) (xs : Series) (i : nat) :
  (i < length xs)%nat ->
  nth_error (rolling_mean w xs) i
  = Some (window_mean w (skipn (i + 1 - w) (firstn (i + 1) xs))).
Proof.
  intros Hi. unfold rolling_mean.
  exact (rolling_mean_from_nth w xs [] i Hi).
Qed.

Lemma length_rolling_mean_from (w : nat) (xs buf : Series) :
  length (rolling_mean_from w buf xs) = length xs.
Proof.
  revert buf. induction xs as [|x xs IH]; intros buf; simpl; auto.
Qed.

Lemma length_rolling_mean (w : nat) (xs : Series) :
  length (rolling_mean w xs) = length xs.
Proof. apply length_rolling_mean_from. Qed.

Lemma count_notna_threshold (l : Series) (k : nat) :
  (forall i, (i < length l)%nat ->
     exists x, nth_error l i = Some x /\ (isnan x = true <-> (i < k)%nat)) ->
  length (filter notna l) = (length l - k)%nat.
Proof.
  induction l as [|x l IH] using rev_ind; intros H.
  - reflexivity.
  - rewrite filter_app, !length_app. simpl length at 3.
    rewrite IH.
    + destruct (H (length l)) as [y [Hy Hk]].
      { rewrite length_app. simpl. lia. }
      rewrite nth_error_app2, Nat.sub_diag in Hy by lia.
      simpl in Hy. injection Hy as <-.
      unfold notna. cbn [filter].
      destruct (isnan x); simpl.
      * assert (length l < k)%nat by (apply Hk; reflexivity). lia.
      * assert (~ (length l < k)%nat) by (intros C; apply Hk in C; discriminate).
        lia.
    + intros i Hi. destruct (H i) as [y [Hy Hk]].
      { rewrite length_app. simpl. lia. }
      rewrite nth_error_app1 in Hy by lia. eauto.
Qed.

Lemma window_mean_fin (w : nat) (qs : list Q) :
  (0 < w)%nat ->
  window_mean w (map Fin qs)
  = if (w <=? length qs)%nat
    then Fin (sum qs / QofNat (length qs)) else NaN.
Proof.
  intros Hw. unfold window_mean.
  rewrite filter_isfinite_fin, length_map.
  destruct (w <=? length qs)%nat eqn:E; auto.
  apply Nat.leb_le in E.
  rewrite Fsum_fin, Fdiv_fin; auto.
  assert (0 < QofNat (length qs)) by (apply QofNat_pos; lia). lra.
Qed.

(** The rolling mean of a column of finite values, row by row. *)
Lemma rolling_mean_fin_nth (w : nat) (qs : list Q) (i : nat) :
  (0 < w)%nat -> (i < length qs)%nat ->
  nth_error (rolling_mean w (map Fin qs)) i
  = Some (if (i + 1 <? w)%nat then NaN
          else Fin (sum (firstn w (skipn (i + 1 - w) qs)) / QofNat w)).
Proof.
  intros Hw Hi.
  rewrite rolling_mean_nth by (rewrite length_map; exact Hi).
  rewrite firstn_map, skipn_map, window_mean_fin by exact Hw.
  rewrite length_skipn, length_firstn.
  replace (Nat.min (i + 1) (length qs)) with (i + 1)%nat by lia.
  f_equal.
  destruct (i + 1 <? w)%nat eqn:E.
  - apply Nat.ltb_lt in E.
    replace (w <=? i + 1 - (i + 1 - w))%nat with false; auto.
    symmetry. apply Nat.leb_gt. lia.
  - apply Nat.ltb_ge in E.
    replace (w <=? i + 1 - (i + 1 - w))%nat with true
      by (symmetry; apply Nat.leb_le; lia).
    replace (i + 1 - (i + 1 - w))%nat with w by lia.
    rewrite firstn_skipn_comm.
    replace (i + 1 - w + w)%nat with (i + 1)%nat by lia.
    reflexivity.
Qed.

Lemma rolling_mean_moving_average (w : nat) (qs : list Q) :
  (0 < w)%nat ->
  moving_average_spec w qs (rolling_mean w (map Fin qs)).
Proof.
  intros Hw. unfold moving_average_spec. split; [|split].
  - rewrite (count_notna_threshold _ (w - 1)).
    + rewrite length_rolling_mean, length_map. lia.
    + intros i Hi. rewrite length_rolling_mean, length_map in Hi.
      rewrite rolling_mean_fin_nth by assumption.
      eexists; split; [reflexivity|].
      destruct (i + 1 <? w)%nat eqn:E; simpl.
      * apply Nat.ltb_lt in E. split; intros; [lia | reflexivity].
      * apply Nat.ltb_ge in E. split; intros; [discriminate | lia].
  - intros i Hi Hlt. rewrite rolling_mean_fin_nth by assumption.
    replace (i + 1 <? w)%nat with true by (symmetry; apply Nat.ltb_lt; lia).
    reflexivity.
  - intros i Hi Hge. rewrite rolling_mean_fin_nth by assumption.
    replace (i + 1 <? w)%nat with false by (symmetry; apply Nat.ltb_ge; lia).
    reflexivity.
Qed.

Lemma close_of_fin (bars : list Bar) : close_of bars = map Fin (map snd bars).
Proof. unfold close_of. rewrite map_map. reflexivity. Qed.

(** C6.  For positive window sizes the moving averages [MA20] and [MA50] of
    [get_data] are defined on exactly [max 0 (n - w + 1)] rows, are NaN
    (missing, not zero) on every row [i < w - 1], and on every later row are
    the arithmetic mean of the closes of rows [i - w + 1] to [i]. *)
Theorem C6_moving_average (sqrtQ : Q -> Q) (w20 w50 : nat) (bars : list Bar) :
  (0 < w20)%nat -> (0 < w50)%nat ->
  let df := get_data sqrtQ w20 w50 bars in
  moving_average_spec w20 (map snd bars) (MA20 df)
  /\ moving_average_spec w50 (map snd bars) (MA50 df).
Proof.
  intros H20 H50. cbn [get_data MA20 MA50].
  rewrite close_of_fin.
  split; apply rolling_mean_moving_average; assumption.
Qed.

(** ** Returns and cumulative growth *)

Lemma lagged_returns (prev : Q) (cs : list Q) :
  0 < prev -> Forall (fun c => 0 < c) cs ->
  map (fun r => (r - Fin 1)%F)
    (zipWith Fdiv (map Fin cs)
       (firstn (length (map Fin cs)) (Fin prev :: map Fin cs)))
  = map Fin (simple_returns prev cs).
Proof.
  revert prev. induction cs as [|c cs IH]; intros prev Hp Hcs.
  - reflexivity.
  - inversion Hcs as [|? ? Hc Hcs']; subst.
    unfold zipWith in *. cbn [map length firstn combine fst snd simple_returns].
    rewrite Fdiv_fin by lra.
    f_equal. apply IH; assumption.
Qed.

(** The returns of positive closes: NaN on the first row, finite after. *)
Lemma returns_of_positive (c0 : Q) (cs : list Q) :
  Forall (fun c => 0 < c) (c0 :: cs) ->
  returns_of (map Fin (c0 :: cs)) = NaN :: map Fin (simple_returns c0 cs).
Proof.
  intros H. inversion H as [|? ? H0 Hcs]; subst.
  unfold returns_of, pct_change, shift.
  cbn [map length firstn]. unfold zipWith at 1.
  cbn [combine map fst snd Fdiv Fsub Fadd Fopp].
  f_equal.
  exact (lagged_returns c0 cs H0 Hcs).
Qed.

Lemma length_simple_returns (prev : Q) (cs : list Q) :
  length (simple_returns prev cs) = length cs.
Proof.
  revert prev. induction cs as [|c cs IH]; intros prev; simpl; auto.
Qed.

(** [cumprod] over values that hold no NaN is the running left product. *)
Lemma cumprod_from_nth (xs : Series) (acc : F) (i : nat) :
  forallb notna xs = true -> (i < length xs)%nat ->
  nth_error (cumprod_from acc xs) i
  = Some (fold_left Fmul (firstn (S i) xs) acc).
Proof.
  revert acc i. induction xs as [|x xs IH]; intros acc i Hn Hi; simpl in Hi.
  - lia.
  - cbn [forallb] in Hn. apply andb_true_iff in Hn as [Hx Hn].
    cbn [cumprod_from]. unfold notna in Hx.
    destruct (isnan x); [discriminate|].
    destruct i as [|i].
    + reflexivity.
    + cbn [nth_error]. rewrite IH by (auto; lia). reflexivity.
Qed.

Lemma forallb_notna_fin (qs : list Q) : forallb notna (map Fin qs) = true.
Proof. induction qs as [|q qs IH]; simpl; auto. Qed.

Lemma forallb_notna_factors (qs : list Q) :
  forallb notna (map (fun r => (Fin 1 + r)%F) (map Fin qs)) = true.
Proof. induction qs as [|q qs IH]; simpl; auto. Qed.

Lemma cumulative_of_positive (rs : list Q) :
  cumulative_of (NaN :: map Fin rs)
  = NaN :: cumprod_from (Fin 1) (map (fun r => (Fin 1 + r)%F) (map Fin rs)).
Proof. reflexivity. Qed.

Lemma bars_closes (bars : list Bar) :
  bars <> [] -> positive_closes bars ->
  exists c0 cs, map snd bars = c0 :: cs /\ Forall (fun c => 0 < c) (c0 :: cs).
Proof.
  intros Hne Hpos. destruct bars as [|b bars]; [congruence|].
  exists (snd b), (map snd bars). split; [reflexivity|].
  unfold positive_closes in Hpos. rewrite Forall_forall in Hpos.
  change (Forall (fun c => 0 < c) (map snd (b :: bars))).
  rewrite Forall_forall. intros c Hc.
  apply in_map_iff in Hc as [b' [<- Hb']]. apply Hpos. exact Hb'.
Qed.

(** C2 (amended).  For a non-empty series of positive closes the cumulative
    growth of row 0 is NaN (missing), and on every row [i >= 1] it is the
    product of [1 + r[j]] for [j = 1..i], [r] being the column of daily
    returns. *)
Theorem C2_cumulative_product (sqrtQ : Q -> Q) (w20 w50 : nat)
    (bars : list Bar) :
  bars <> [] -> positive_closes bars ->
  let df := get_data sqrtQ w20 w50 bars in
  nth_error (Cumulative df) 0 = Some NaN
  /\ forall i, (1 <= i < length bars)%nat ->
       nth_error (Cumulative df) i
       = Some (Fprod (map (fun r => (Fin 1 + r)%F)
                        (firstn i (skipn 1 (Returns df))))).
Proof.
  intros Hne Hpos.
  destruct (bars_closes bars Hne Hpos) as [c0 [cs [Hcl Hall]]].
  assert (Hlen : length bars = S (length cs)).
  { pose proof (length_map snd bars) as E. rewrite Hcl in E. symmetry. exact E. }
  cbn [get_data Cumulative Returns].
  rewrite close_of_fin, Hcl, (returns_of_positive c0 cs Hall).
  rewrite cumulative_of_positive. split; [reflexivity|].
  intros i Hi. destruct i as [|i]; [lia|].
  cbn [nth_error skipn].
  rewrite cumprod_from_nth.
  - unfold Fprod. rewrite firstn_map. reflexivity.
  - apply forallb_notna_factors.
  - rewrite !length_map, length_simple_returns. lia.
Qed.

(** The running product of the return factors collapses: after the closes
    [cs] that follow [prev], the product started at [a] has reached
    [a * c / prev] at the row of the close [c]. *)
Lemma cumprod_telescopes (cs : list Q) (prev a : Q) (i : nat) (c : Q) :
  0 < prev -> Forall (fun c => 0 < c) cs ->
  nth_error cs i = Some c ->
  exists v,
    nth_error
      (cumprod_from (Fin a)
         (map (fun r => (Fin 1 + r)%F) (map Fin (simple_returns prev cs)))) i
    = Some (Fin v)
    /\ v == a * c / prev.
Proof.
  revert prev a i. induction cs as [|x cs IH]; intros prev a i Hp Hcs Hi.
  - destruct i; discriminate.
  - inversion Hcs as [|? ? Hx Hcs']; subst.
    cbn [simple_returns map cumprod_from Fadd isnan Fmul].
    destruct i as [|i]; cbn [nth_error] in *.
    + injection Hi as <-. eexists; split; [reflexivity|].
      field. lra.
    + destruct (IH x (a * (1 + (x / prev + - (1)))) i Hx Hcs' Hi)
        as [v [Hv Ev]].
      exists v. split; [exact Hv|].
      rewrite Ev. field. split; lra.
Qed.

(** Two runs of the running product over closes with the same ratios give
    the same values. *)
Lemma cumprod_same_ratios (cs cs' : list Q) (prev prev' a a' : Q) :
  0 < prev -> 0 < prev' ->
  Forall (fun c => 0 < c) cs -> Forall (fun c => 0 < c) cs' ->
  Forall2 (fun c c' => a * c / prev == a' * c' / prev') cs cs' ->
  Forall2 Feq
    (cumprod_from (Fin a)
       (map (fun r => (Fin 1 + r)%F) (map Fin (simple_returns prev cs))))
    (cumprod_from (Fin a')
       (map (fun r => (Fin 1 + r)%F) (map Fin (simple_returns prev' cs')))).
Proof.
  intros Hp Hp' Hcs Hcs' H. revert prev prev' a a' Hp Hp' Hcs Hcs' H.
  revert cs'. induction cs as [|c cs IH]; intros cs' prev prev' a a'
    Hp Hp' Hcs Hcs' H; inversion H as [|? c' ? cs1 Hc Hrest]; subst.
  - constructor.
  - inversion Hcs as [|? ? Hc0 Hcs0]; subst.
    inversion Hcs' as [|? ? Hc0' Hcs0']; subst.
    cbn [simple_returns map cumprod_from Fadd isnan Fmul].
    constructor.
    + cbn [Feq].
      assert (E : a * (1 + (c / prev + - (1))) == a * c / prev)
        by (field; lra).
      assert (E' : a' * (1 + (c' / prev' + - (1))) == a' * c' / prev')
        by (field; lra).
      rewrite E, E'. exact Hc.
    + apply IH; auto.
      eapply Forall2_impl; [|exact Hrest].
      intros y y' Hy. cbn beta in Hy.
      assert (E : a * (1 + (c / prev + - (1))) * y / c == a * y / prev)
        by (field; split; lra).
      assert (E' : a' * (1 + (c' / prev' + - (1))) * y' / c'
                   == a' * y' / prev')
        by (field; split; lra).
      rewrite E, E'. exact Hy.
Qed.

Lemma cumulative_same_ratios (closes closes' : list Q) :
  Forall (fun c => 0 < c) closes -> Forall (fun c => 0 < c) closes' ->
  same_ratios closes closes' ->
  Forall2 Feq (cumulative_of (returns_of (map Fin closes)))
    (cumulative_of (returns_of (map Fin closes'))).
Proof.
  intros Hpos Hpos' Hr.
  destruct closes as [|c0 cs], closes' as [|c0' cs']; try contradiction.
  - constructor.
  - rewrite !returns_of_positive, !cumulative_of_positive by assumption.
    inversion Hpos; inversion Hpos'; subst.
    constructor; [exact I|].
    apply cumprod_same_ratios; auto.
    eapply Forall2_impl; [|exact Hr].
    intros y y' Hy. cbn beta in Hy.
    assert (E : 1 * y / c0 == y / c0) by (field; lra).
    assert (E' : 1 * y' / c0' == y' / c0') by (field; lra).
    rewrite E, E'. exact Hy.
Qed.

Lemma positive_closes_snd (bars : list Bar) :
  positive_closes bars -> Forall (fun c => 0 < c) (map snd bars).
Proof.
  unfold positive_closes. rewrite !Forall_forall. intros H c Hc.
  apply in_map_iff in Hc as [b [<- Hb]]. apply H. exact Hb.
Qed.

(** C10.  For positive closes the cumulative growth of every row [i >= 1] is
    [close[i] / close[0]]: the product of the return factors collapses.  So
    two series of positive closes with the same ratios to their first close
    have the same cumulative growth and the same drawdown. *)
Theorem C10_cumulative_telescopes (sqrtQ : Q -> Q) (w20 w50 : nat)
    (bars : list Bar) :
  positive_closes bars ->
  let df := get_data sqrtQ w20 w50 bars in
  (forall i c0 ci,
     (1 <= i)%nat ->
     nth_error (map snd bars) 0 = Some c0 ->
     nth_error (map snd bars) i = Some ci ->
     exists v, nth_error (Cumulative df) i = Some (Fin v) /\ v == ci / c0)
  /\ (forall bars',
        positive_closes bars' ->
        same_ratios (map snd bars) (map snd bars') ->
        let df' := get_data sqrtQ w20 w50 bars' in
        Forall2 Feq (Cumulative df) (Cumulative df')
        /\ Forall2 Feq (Drawdown df) (Drawdown df')).
Proof.
  intros Hpos df. split.
  - intros i c0 ci Hi H0 Hci.
    assert (Hne : bars <> []) by (intros ->; discriminate).
    destruct (bars_closes bars Hne Hpos) as [c0' [cs [Hcl Hall]]].
    rewrite Hcl in H0, Hci. injection H0 as ->.
    unfold df. cbn [get_data Cumulative].
    rewrite close_of_fin, Hcl, (returns_of_positive c0 cs Hall).
    rewrite cumulative_of_positive.
    destruct i as [|i]; [lia|]. cbn [nth_error] in *.
    inversion Hall as [|? ? Hc0 Hcs]; subst.
    destruct (cumprod_telescopes cs c0 1 i ci Hc0 Hcs Hci) as [v [Hv Ev]].
    exists v. split; [exact Hv|].
    rewrite Ev. field. lra.
  - intros bars' Hpos' Hr df'.
    assert (Hc : Forall2 Feq (Cumulative df) (Cumulative df')).
    { unfold df, df'. cbn [get_data Cumulative]. rewrite !close_of_fin.
      apply cumulative_same_ratios; auto using positive_closes_snd. }
    split; [exact Hc|].
    unfold df, df' in *. cbn [get_data Cumulative Drawdown] in *.
    apply drawdown_of_Feq. exact Hc.
Qed.

(** ** Drawdown *)

Lemma nth_error_zipWith (f : F -> F -> F) (xs ys : Series) (i : nat) :
  nth_error (zipWith f xs ys) i
  = match nth_error xs i, nth_error ys i with
    | Some x, Some y => Some (f x y)
    | _, _ => None
    end.
Proof.
  unfold zipWith. revert ys i.
  induction xs as [|x xs IH]; intros ys i.
  - destruct i; reflexivity.
  - destruct ys as [|y ys].
    + destruct i; simpl; auto. destruct (nth_error xs i); reflexivity.
    + destruct i; simpl; auto.
Qed.

(** The running maximum, row by row: a NaN row stays NaN; on a finite row it
    is finite, at least the row's value and at least the maximum carried in,
    and it is the value carried in or the value of a row seen so far. *)
Lemma cummax_from_nth (xs : Series) (acc : F) (i : nat) :
  Forall nan_or_positive xs ->
  acc = NInf \/ (exists a, acc = Fin a) ->
  match nth_error xs i with
  | None => nth_error (cummax_from acc xs) i = None
  | Some NaN => nth_error (cummax_from acc xs) i = Some NaN
  | Some (Fin c) =>
      exists m,
        nth_error (cummax_from acc xs) i = Some (Fin m)
        /\ c <= m
        /\ (forall a, acc = Fin a -> a <= m)
        /\ (acc = Fin m
            \/ exists j, (j <= i)%nat /\ nth_error xs j = Some (Fin m))
  | Some _ => True
  end.
Proof.
  revert acc i. induction xs as [|x xs IH]; intros acc i Hxs Hacc.
  - destruct i; reflexivity.
  - inversion Hxs as [|? ? Hx Hxs']; subst.
    destruct Hx as [-> | [q [-> Hq]]].
    + (* a NaN row *)
      cbn [cummax_from isnan]. destruct i as [|i]; [reflexivity|].
      cbn [nth_error]. specialize (IH acc i Hxs' Hacc).
      destruct (nth_error xs i) as [[| | |c]|]; auto.
      destruct IH as [m [H1 [H2 [H3 H4]]]].
      exists m. repeat split; auto.
      destruct H4 as [H4 | [j [Hj Hm]]]; [left; exact H4|].
      right. exists (S j). split; [lia | exact Hm].
    + (* a finite row *)
      cbn [cummax_from isnan].
      assert (Hmax : exists m, Fmax acc (Fin q) = Fin m /\ q <= m
                 /\ (forall a, acc = Fin a -> a <= m)
                 /\ (acc = Fin m \/ m = q)).
      { destruct Hacc as [-> | [a ->]].
        - exists q. cbn. repeat split; auto; try lra. intros a Ha; discriminate.
        - unfold Fmax, Fltb. destruct (Qle_bool q a) eqn:E; cbn [negb].
          + apply Qle_bool_iff in E. exists a. repeat split; auto.
            intros a' Ha'. injection Ha' as <-. lra.
          + exists q. repeat split; auto; try lra.
            intros a' Ha'. injection Ha' as <-.
            destruct (Qlt_le_dec a q) as [L | L]; [lra|].
            apply Qle_bool_iff in L. congruence. }
      destruct Hmax as [m [Em [Hqm [Ham Hor]]]]. rewrite Em.
      destruct i as [|i]; cbn [nth_error].
      * exists m. repeat split; auto.
        destruct Hor as [Ha | ->]; [left; exact Ha|].
        right. exists 0%nat. split; [lia | reflexivity].
      * specialize (IH (Fin m) i Hxs' (or_intror (ex_intro _ m eq_refl))).
        destruct (nth_error xs i) as [[| | |c]|]; auto.
        destruct IH as [m' [H1 [H2 [H3 H4]]]].
        assert (Hmm : m <= m') by (apply H3; reflexivity).
        exists m'. repeat split; auto.
        -- intros a Ha. specialize (Ham a Ha). lra.
        -- destruct H4 as [H4 | [j [Hj Hm]]].
           ++ injection H4 as ->.
              destruct Hor as [Ha | ->]; [left; exact Ha|].
              right. exists 0%nat. split; [lia | reflexivity].
           ++ right. exists (S j). split; [lia | exact Hm].
Qed.

Lemma cumprod_positive (cs : list Q) (prev a : Q) :
  0 < a -> 0 < prev -> Forall (fun c => 0 < c) cs ->
  Forall nan_or_positive
    (cumprod_from (Fin a)
       (map (fun r => (Fin 1 + r)%F) (map Fin (simple_returns prev cs)))).
Proof.
  revert prev a. induction cs as [|c cs IH]; intros prev a Ha Hp Hcs.
  - constructor.
  - inversion Hcs as [|? ? Hc Hcs']; subst.
    cbn [simple_returns map cumprod_from Fadd isnan Fmul].
    assert (Hpos : 0 < a * (1 + (c / prev + - (1)))).
    { apply Qmult_lt_0_compat; [exact Ha|].
      assert (E : 1 + (c / prev + - (1)) == c / prev) by ring.
      rewrite E. apply Qlt_shift_div_l; lra. }
    constructor.
    + right. eexists; split; [reflexivity | exact Hpos].
    + apply IH; assumption.
Qed.

(** The cumulative growth of positive closes is missing or positive. *)
Lemma cumulative_nan_or_positive (sqrtQ : Q -> Q) (w20 w50 : nat)
    (bars : list Bar) :
  positive_closes bars ->
  Forall nan_or_positive (Cumulative (get_data sqrtQ w20 w50 bars)).
Proof.
  intros Hpos. destruct bars as [|b bars'] eqn:Eb.
  - constructor.
  - rewrite <- Eb in *.
    assert (Hne : bars <> []) by (rewrite Eb; discriminate).
    destruct (bars_closes bars Hne Hpos) as [c0 [cs [Hcl Hall]]].
    cbn [get_data Cumulative].
    rewrite close_of_fin, Hcl, (returns_of_positive c0 cs Hall).
    rewrite cumulative_of_positive.
    inversion Hall; subst.
    constructor; [left; reflexivity|].
    apply cumprod_positive; auto. lra.
Qed.

Lemma nth_error_Forall {A : Type} (P : A -> Prop) (l : list A) (i : nat) (x : A) :
  Forall P l -> nth_error l i = Some x -> P x.
Proof.
  intros H E. rewrite Forall_forall in H. apply H.
  eapply nth_error_In; eauto.
Qed.

(** Drawdown over a column of missing or positive growth values: every row
    is NaN or at most 0. *)
Lemma drawdown_of_nonpositive (xs : Series) (i : nat) (x : F) :
  Forall nan_or_positive xs ->
  nth_error (drawdown_of xs) i = Some x ->
  x = NaN \/ exists d, x = Fin d /\ d <= 0.
Proof.
  intros Hxs. unfold drawdown_of, cummax.
  rewrite !nth_error_zipWith.
  pose proof (cummax_from_nth xs NInf i Hxs (or_introl eq_refl)) as Hm.
  destruct (nth_error xs i) as [c|] eqn:Ei; [|discriminate].
  destruct (nth_error_Forall _ _ _ _ Hxs Ei) as [-> | [q [-> Hq]]].
  - rewrite Hm. intros H. injection H as <-. left; reflexivity.
  - destruct Hm as [m [-> [Hqm _]]].
    intros H. injection H as <-. right.
    rewrite Qeq_bool_false by lra.
    eexists; split; [reflexivity|].
    apply Qle_shift_div_r; lra.
Qed.

(** Drawdown is 0 on a row whose growth value is at least every earlier
    one. *)
Lemma drawdown_of_running_max (xs : Series) (i : nat) (c : Q) :
  Forall nan_or_positive xs ->
  nth_error xs i = Some (Fin c) ->
  (forall j c', (j < i)%nat -> nth_error xs j = Some (Fin c') -> c' <= c) ->
  exists d, nth_error (drawdown_of xs) i = Some (Fin d) /\ d == 0.
Proof.
  intros Hxs Ei Hmax. unfold drawdown_of, cummax.
  rewrite !nth_error_zipWith.
  pose proof (cummax_from_nth xs NInf i Hxs (or_introl eq_refl)) as Hm.
  rewrite Ei in *.
  destruct (nth_error_Forall _ _ _ _ Hxs Ei) as [E | [q [E Hq]]];
    [discriminate|]. injection E as <-.
  destruct Hm as [m [-> [Hcm [_ [Hacc | [j [Hj Hmj]]]]]]]; [discriminate|].
  assert (Hmc : m <= c).
  { destruct (Nat.eq_dec j i) as [-> | Hne].
    - rewrite Ei in Hmj. injection Hmj as ->. lra.
    - apply (Hmax j m); [lia | exact Hmj]. }
  cbn [Fsub Fopp Fadd]. rewrite Fdiv_fin by lra.
  eexists; split; [reflexivity|].
  assert (E : c + - m == 0) by lra.
  rewrite E. field. lra.
Qed.

(** C7.  For positive closes every row of the drawdown is NaN (undefined)
    or at most 0, and the drawdown is 0 on every row where the cumulative
    growth is at least all its earlier values. *)
Theorem C7_drawdown (sqrtQ : Q -> Q) (w20 w50 : nat) (bars : list Bar) :
  positive_closes bars ->
  let df := get_data sqrtQ w20 w50 bars in
  (forall i x, nth_error (Drawdown df) i = Some x ->
     x = NaN \/ exists d, x = Fin d /\ d <= 0)
  /\ (forall i c,
        nth_error (Cumulative df) i = Some (Fin c) ->
        (forall j c', (j < i)%nat ->
           nth_error (Cumulative df) j = Some (Fin c') -> c' <= c) ->
        exists d, nth_error (Drawdown df) i = Some (Fin d) /\ d == 0).
Proof.
  intros Hpos df.
  pose proof (cumulative_nan_or_positive sqrtQ w20 w50 bars Hpos) as Hok.
  split.
  - intros i x. apply drawdown_of_nonpositive. exact Hok.
  - intros i c. apply drawdown_of_running_max. exact Hok.
Qed.

(** ** RSI *)

Lemma lagged_differences (prev : Q) (cs : list Q) :
  zipWith Fsub (map Fin cs)
    (firstn (length (map Fin cs)) (Fin prev :: map Fin cs))
  = map Fin (differences prev cs).
Proof.
  revert prev. induction cs as [|c cs IH]; intros prev.
  - reflexivity.
  - unfold zipWith in *. cbn [map length firstn combine fst snd differences].
    cbn [Fsub Fopp Fadd]. f_equal. apply IH.
Qed.

Lemma diff_fin (c0 : Q) (cs : list Q) :
  diff (map Fin (c0 :: cs)) = NaN :: map Fin (differences c0 cs).
Proof.
  unfold diff, shift. cbn [map length firstn]. unfold zipWith at 1.
  cbn [combine map fst snd Fsub Fadd Fopp]. f_equal.
  exact (lagged_differences c0 cs).
Qed.

Lemma length_differences (prev : Q) (cs : list Q) :
  length (differences prev cs) = length cs.
Proof.
  revert prev. induction cs as [|c cs IH]; intros prev; simpl; auto.
Qed.

(** The two columns the rolling means of the RSI run over hold finite,
    non-negative values on every row, the first included: there the
    difference is NaN, both comparisons are false and [where] puts 0. *)
Lemma gains_fin (qs : list Q) :
  exists gs,
    Series_where (fun d => Fgtb d (Fin 0)) (Fin 0) (diff (map Fin qs))
    = map Fin gs
    /\ length gs = length qs /\ Forall (fun g => 0 <= g) gs.
Proof.
  destruct qs as [|c0 cs].
  - exists []. repeat split; constructor.
  - rewrite diff_fin.
    exists (0 :: map (fun d => if negb (Qle_bool d 0) then d else 0)
                 (differences c0 cs)).
    split; [|split].
    + unfold Series_where. cbn [map Fgtb Fltb]. f_equal.
      rewrite !map_map. apply map_ext. intros d. cbn.
      destruct (Qle_bool d 0); reflexivity.
    + simpl. rewrite length_map, length_differences. reflexivity.
    + constructor; [lra|]. rewrite Forall_forall. intros g Hg.
      apply in_map_iff in Hg as [d [<- _]].
      destruct (Qle_bool d 0) eqn:E; cbn [negb]; [lra|].
      destruct (Qlt_le_dec 0 d) as [L | L]; [lra|].
      apply Qle_bool_iff in L. congruence.
Qed.

Lemma losses_fin (qs : list Q) :
  exists ls,
    map Fopp
      (Series_where (fun d => Fltb d (Fin 0)) (Fin 0) (diff (map Fin qs)))
    = map Fin ls
    /\ length ls = length qs /\ Forall (fun l => 0 <= l) ls.
Proof.
  destruct qs as [|c0 cs].
  - exists []. repeat split; constructor.
  - rewrite diff_fin.
    exists (- 0 :: map (fun d => - (if negb (Qle_bool 0 d) then d else 0))
                   (differences c0 cs)).
    split; [|split].
    + unfold Series_where. cbn [map Fltb Fopp]. f_equal.
      rewrite !map_map. apply map_ext. intros d. cbn.
      destruct (Qle_bool 0 d); reflexivity.
    + simpl. rewrite length_map, length_differences. reflexivity.
    + constructor; [lra|]. rewrite Forall_forall. intros g Hg.
      apply in_map_iff in Hg as [d [<- _]].
      destruct (Qle_bool 0 d) eqn:E; cbn [negb]; [lra|].
      destruct (Qlt_le_dec d 0) as [L | L]; [lra|].
      apply Qle_bool_iff in L. congruence.
Qed.

Lemma Forall_firstn {A : Type} (P : A -> Prop) (n : nat) (l : list A) :
  Forall P l -> Forall P (firstn n l).
Proof.
  revert n. induction l as [|x l IH]; intros n H; destruct n; simpl;
    try constructor; inversion H; subst; auto.
Qed.

Lemma Forall_skipn {A : Type} (P : A -> Prop) (n : nat) (l : list A) :
  Forall P l -> Forall P (skipn n l).
Proof.
  revert n. induction l as [|x l IH]; intros n H; destruct n; simpl; auto.
  inversion H; subst; auto.
Qed.

Lemma sum_from_nonneg (qs : list Q) (a : Q) :
  0 <= a -> Forall (fun q => 0 <= q) qs -> 0 <= fold_left Qplus qs a.
Proof.
  revert a. induction qs as [|q qs IH]; intros a Ha H; simpl; auto.
  inversion H; subst. apply IH; auto. lra.
Qed.

(** The rolling mean of finite non-negative values is, on a row where it is
    defined, finite and non-negative. *)
Lemma rolling_mean_nonneg (w : nat) (qs : list Q) (i : nat) :
  (0 < w)%nat -> (i < length qs)%nat -> (w <= i + 1)%nat ->
  Forall (fun q => 0 <= q) qs ->
  exists m, nth_error (rolling_mean w (map Fin qs)) i = Some (Fin m) /\ 0 <= m.
Proof.
  intros Hw Hi Hge Hqs. rewrite rolling_mean_fin_nth by assumption.
  replace (i + 1 <? w)%nat with false by (symmetry; apply Nat.ltb_ge; lia).
  eexists; split; [reflexivity|].
  apply Qle_shift_div_l; [apply QofNat_pos; exact Hw|].
  assert (0 <= sum (firstn w (skipn (i + 1 - w) qs))).
  { apply sum_from_nonneg; [lra|]. apply Forall_firstn, Forall_skipn, Hqs. }
  lra.
Qed.

(** A defined row of a rolling mean lies where the window is full. *)
Lemma rolling_mean_defined (w : nat) (qs : list Q) (i : nat) (m : Q) :
  (0 < w)%nat ->
  nth_error (rolling_mean w (map Fin qs)) i = Some (Fin m) ->
  (i < length qs)%nat /\ (w <= i + 1)%nat.
Proof.
  intros Hw H.
  assert (Hi : (i < length qs)%nat).
  { rewrite <- (length_map Fin), <- (length_rolling_mean w).
    apply nth_error_Some. rewrite H. discriminate. }
  split; [exact Hi|].
  rewrite rolling_mean_fin_nth in H by assumption.
  destruct (i + 1 <? w)%nat eqn:E; [discriminate|].
  apply Nat.ltb_ge in E. exact E.
Qed.

(** An infinite ratio of average gain to average loss, of either sign, gives
    an RSI of 100. *)
Lemma rsi_of_rs_infinite : rsi_of_rs PInf =f= Fin 100 /\ rsi_of_rs NInf =f= Fin 100.
Proof. split; cbn; lra. Qed.

(** C3 (amended).  On a row where the rolling average loss is 0 the rolling
    average gain is defined and not negative; the RSI is 100 when that gain
    is positive, and NaN when it is 0 as well. *)
Theorem C3_rsi_zero_loss (sqrtQ : Q -> Q) (w20 w50 : nat) (bars : list Bar)
    (i : nat) (l : Q) :
  let df := get_data sqrtQ w20 w50 bars in
  nth_error (rsi_loss (Close df)) i = Some (Fin l) ->
  l == 0 ->
  exists g,
    nth_error (rsi_gain (Close df)) i = Some (Fin g)
    /\ 0 <= g
    /\ (0 < g ->
        exists r, nth_error (RSI df) i = Some r /\ r =f= Fin 100)
    /\ (g == 0 -> nth_error (RSI df) i = Some NaN).
Proof.
  cbn [get_data Close RSI]. rewrite close_of_fin.
  set (qs := map snd bars).
  unfold rsi_of, rsi_loss, rsi_gain.
  destruct (gains_fin qs) as [gs [-> [Lg Pg]]].
  destruct (losses_fin qs) as [ls [-> [Ll Pl]]].
  intros Hl El.
  destruct (rolling_mean_defined 14 ls i l ltac:(lia) Hl) as [Hi Hw].
  destruct (rolling_mean_nonneg 14 gs i ltac:(lia) ltac:(lia) Hw Pg)
    as [g [Hg Hg0]].
  exists g. split; [exact Hg|]. split; [exact Hg0|].
  rewrite nth_error_map, nth_error_zipWith, Hg, Hl.
  cbn [option_map Fdiv].
  assert (Eb : Qeq_bool l 0 = true) by (apply Qeq_bool_iff; exact El).
  rewrite Eb. unfold Finf_scale. split.
  - intros Hpos. rewrite (proj1 (Qgt_alt g 0) Hpos).
    eexists; split; [reflexivity|]. apply rsi_of_rs_infinite.
  - intros Hz. rewrite (proj1 (Qeq_alt g 0) Hz). reflexivity.
Qed.

(** ** Sharpe ratio *)

Lemma QofNat_S (n : nat) : QofNat (S n) == QofNat n + 1.
Proof.
  unfold QofNat. rewrite Nat2Z.inj_succ, <- Z.add_1_r, inject_Z_plus.
  reflexivity.
Qed.

Lemma sum_from_equal (qs : list Q) (r a : Q) :
  Forall (fun q => q == r) qs ->
  fold_left Qplus qs a == a + QofNat (length qs) * r.
Proof.
  revert a. induction qs as [|q qs IH]; intros a H.
  - simpl. unfold QofNat. simpl. ring.
  - inversion H as [|? ? Hq Hqs]; subst.
    cbn [fold_left length]. rewrite (IH _ Hqs), QofNat_S, Hq. ring.
Qed.

(** The sample variance of at least two equal returns is 0. *)
Lemma var_of_equal (rs : list Q) (r : Q) :
  (2 <= length rs)%nat ->
  Forall (fun q => q == r) rs ->
  exists v, var (NaN :: map Fin rs) = Fin v /\ v == 0.
Proof.
  intros Hlen Hrs. unfold var. cbn [filter notna isnan negb].
  rewrite filter_notna_fin, length_map.
  replace (length rs <=? 1)%nat with false by (symmetry; apply Nat.leb_gt; lia).
  assert (Hn : 0 < QofNat (length rs)) by (apply QofNat_pos; lia).
  assert (Hn1 : 0 < QofNat (length rs - 1)) by (apply QofNat_pos; lia).
  rewrite Fsum_fin, Fdiv_fin by lra.
  set (avg := sum rs / QofNat (length rs)).
  rewrite map_map. cbn [Fsub Fopp Fadd Fmul].
  rewrite <- (map_map (fun x => (avg + - x) * (avg + - x)) Fin).
  rewrite Fsum_fin, Fdiv_fin by lra.
  eexists; split; [reflexivity|].
  assert (Eavg : avg == r).
  { unfold avg, sum. rewrite (sum_from_equal rs r 0 Hrs). field. lra. }
  assert (Hsq : Forall (fun q => q == 0)
                  (map (fun x => (avg + - x) * (avg + - x)) rs)).
  { rewrite Forall_forall. intros q Hq.
    apply in_map_iff in Hq as [x [<- Hx]].
    rewrite Forall_forall in Hrs. rewrite (Hrs x Hx), Eavg. ring. }
  unfold sum. rewrite (sum_from_equal _ 0 0 Hsq). field. lra.
Qed.

Lemma simple_returns_constant (c prev : Q) (cs : list Q) :
  0 < c -> prev == c -> Forall (fun q => q == c) cs ->
  Forall (fun q => 0 < q) cs
  /\ Forall (fun r => r == 0) (simple_returns prev cs).
Proof.
  intros Hc. revert prev. induction cs as [|x cs IH]; intros prev Hp H.
  - split; constructor.
  - inversion H as [|? ? Hx Hcs]; subst.
    destruct (IH x Hx Hcs) as [IH1 IH2].
    split; constructor; auto.
    + lra.
    + rewrite Hx, Hp. field. lra.
Qed.

Section SharpeZero.

Variable sqrtQ : Q -> Q.
Hypothesis sqrtQ_zero : forall q, q == 0 -> sqrtQ q == 0.

(** A volatility of exactly 0 gives a Sharpe ratio of 0. *)
Lemma sharpe_of_zero_volatility (returns : Series) (v : Q) :
  std sqrtQ returns = Fin v -> v == 0 -> sharpe_of sqrtQ returns = Fin 0.
Proof.
  intros Hv Ev. unfold sharpe_of. rewrite Hv. cbn [Fneb].
  replace (Qeq_bool v 0) with true
    by (symmetry; apply Qeq_bool_iff; exact Ev).
  reflexivity.
Qed.

(** At least three bars of one positive close: the volatility is 0. *)
Lemma std_constant_closes (bars : list Bar) (c : Q) :
  0 < c -> (3 <= length bars)%nat ->
  Forall (fun b => snd b == c) bars ->
  exists v, std sqrtQ (returns_of (close_of bars)) = Fin v /\ v == 0.
Proof.
  intros Hc Hlen Hall.
  destruct bars as [|b0 bars]; [simpl in Hlen; lia|].
  inversion Hall as [|? ? Hb0 Hrest]; subst.
  assert (Hcs : Forall (fun q => q == c) (map snd bars)).
  { rewrite Forall_forall in *. intros q Hq.
    apply in_map_iff in Hq as [b [<- Hb]]. apply Hrest. exact Hb. }
  destruct (simple_returns_constant c (snd b0) (map snd bars) Hc Hb0 Hcs)
    as [Hpos Hret].
  rewrite close_of_fin.
  change (map snd (b0 :: bars)) with (snd b0 :: map snd bars).
  rewrite returns_of_positive by (constructor; [lra | exact Hpos]).
  destruct (var_of_equal (simple_returns (snd b0) (map snd bars)) 0)
    as [v [Hv Ev]].
  { rewrite length_simple_returns, length_map. simpl in Hlen. lia. }
  { exact Hret. }
  unfold std. rewrite Hv. cbn [Fsqrt].
  replace (Qle_bool 0 v) with true
    by (symmetry; apply Qle_bool_iff; lra).
  eexists; split; [reflexivity|]. apply sqrtQ_zero. exact Ev.
Qed.

(** C4 (amended).  With a square root that sends 0 to 0: whenever the
    standard deviation of the returns (the sample one, as [std] computes it)
    is exactly 0 the Sharpe ratio is 0, and this is the case of every
    constant series of at least three bars. *)
Theorem C4_sharpe_zero_volatility (w20 w50 : nat) (bars : list Bar) :
  let df := get_data sqrtQ w20 w50 bars in
  (forall v, std sqrtQ (Returns df) = Fin v -> v == 0 -> Sharpe df = Fin 0)
  /\ (forall c, 0 < c -> (3 <= length bars)%nat ->
       Forall (fun b => snd b == c) bars ->
       (exists v, std sqrtQ (Returns df) = Fin v /\ v == 0)
       /\ Sharpe df = Fin 0).
Proof.
  cbn [get_data Returns Sharpe]. split.
  - intros v. apply sharpe_of_zero_volatility.
  - intros c Hc Hlen Hall.
    destruct (std_constant_closes bars c Hc Hlen Hall) as [v [Hv Ev]].
    split; [exists v; auto|].
    exact (sharpe_of_zero_volatility _ v Hv Ev).
Qed.

End SharpeZero.

(** ** The portfolio *)

Lemma Qmult_1_r_eq (q : Q) : q * 1 = q.
Proof.
  destruct q as [n d]. unfold Qmult. cbn [Qnum Qden].
  rewrite Z.mul_1_r, Pos.mul_1_r. reflexivity.
Qed.

Lemma Fmul_1_r (x : F) : (x * Fin 1)%F = x.
Proof.
  destruct x; try reflexivity.
  cbn [Fmul]. rewrite Qmult_1_r_eq. reflexivity.
Qed.

Lemma weighted_by_one (rs : Series) :
  map (fun r => (r * Fin 1)%F) rs = rs.
Proof.
  rewrite <- (map_id rs) at 2. apply map_ext. exact Fmul_1_r.
Qed.

(** C5.  The portfolio of one ticker with weight 1 has the daily returns,
    the cumulative growth, the drawdown and the Sharpe ratio of [get_data] on
    that ticker: the values are the same, so within every tolerance. *)
Theorem C5_single_ticker_portfolio (sqrtQ : Q -> Q) (w20 w50 : nat)
    (bars : list Bar) :
  let df := get_data sqrtQ w20 w50 bars in
  portfolio_metrics sqrtQ w20 w50 [(bars, 1)]
  = Some {| pm_index := index df;
            pm_Daily_Return := Returns df;
            pm_Cumulative := Cumulative df;
            pm_sharpe := Sharpe df;
            pm_drawdown := Drawdown df |}.
Proof.
  unfold portfolio_metrics, portfolio_data.
  cbn [fold_left portfolio_step fst snd
       p_index p_Cumulative p_Daily_Return].
  rewrite weighted_by_one.
  reflexivity.
Qed.

Lemma Fadd_nan_r (x : F) : (x + NaN)%F = NaN.
Proof. destruct x; reflexivity. Qed.

Lemma Fmul_nan_r (x : F) : (x * NaN)%F = NaN.
Proof. destruct x; reflexivity. Qed.

Lemma length_zipWith (f : F -> F -> F) (xs ys : Series) :
  length (zipWith f xs ys) = Nat.min (length xs) (length ys).
Proof. unfold zipWith. rewrite length_map, length_combine. reflexivity. Qed.

Lemma length_shift (xs : Series) : length (shift xs) = length xs.
Proof. unfold shift. rewrite length_firstn. simpl. lia. Qed.

Lemma length_returns_of (xs : Series) : length (returns_of xs) = length xs.
Proof.
  unfold returns_of, pct_change.
  rewrite length_map, length_zipWith, length_shift. lia.
Qed.

Lemma length_cumprod_from (xs : Series) (acc : F) :
  length (cumprod_from acc xs) = length xs.
Proof.
  revert acc. induction xs as [|x xs IH]; intros acc; simpl; auto.
  destruct (isnan x); simpl; rewrite IH; reflexivity.
Qed.

Lemma lookup_absent (d : Z) (idx : list Z) (vals : Series) :
  ~ In d idx -> lookup d idx vals = NaN.
Proof.
  unfold lookup. revert vals.
  induction idx as [|k idx IH]; intros vals Hd; [reflexivity|].
  destruct vals as [|v vals]; [reflexivity|].
  cbn [combine find fst].
  destruct (Z.eqb_spec k d) as [-> | Hne].
  - exfalso. apply Hd. left; reflexivity.
  - apply IH. intros Hin. apply Hd. right; exact Hin.
Qed.

Lemma nth_error_reindex (idx idx' : list Z) (vals : Series) (i : nat) :
  nth_error (reindex idx idx' vals) i
  = option_map (fun d => lookup d idx' vals) (nth_error idx i).
Proof. unfold reindex. apply nth_error_map. Qed.

Lemma length_reindex (idx idx' : list Z) (vals : Series) :
  length (reindex idx idx' vals) = length idx.
Proof. unfold reindex. apply length_map. Qed.

Section Portfolio.

Variable sqrtQ : Q -> Q.
Variables w20 w50 : nat.

Lemma portfolio_step_first (bars : list Bar) (w : Q) :
  exists p,
    portfolio_step sqrtQ w20 w50 None (bars, w) = Some p
    /\ frame_on (map fst bars) p.
Proof.
  eexists; split; [reflexivity|].
  unfold frame_on. cbn [p_index p_Cumulative p_Daily_Return get_data
                        index Returns fst snd].
  unfold cumprod.
  rewrite length_cumprod_from, !length_map, length_returns_of.
  unfold close_of. rewrite length_map. auto.
Qed.

(** A later iteration keeps the index, keeps every NaN, and puts NaN on every
    date its ticker lacks. *)
Lemma portfolio_step_next (idx : list Z) (p : PortfolioFrame)
    (bars : list Bar) (w : Q) :
  idx <> [] -> frame_on idx p ->
  exists p',
    portfolio_step sqrtQ w20 w50 (Some p) (bars, w) = Some p'
    /\ frame_on idx p'
    /\ (forall i, nth_error (p_Daily_Return p) i = Some NaN ->
                  nth_error (p_Daily_Return p') i = Some NaN)
    /\ (forall i, nth_error (p_Cumulative p) i = Some NaN ->
                  nth_error (p_Cumulative p') i = Some NaN)
    /\ (forall i d, nth_error idx i = Some d -> ~ In d (map fst bars) ->
          nth_error (p_Daily_Return p') i = Some NaN
          /\ nth_error (p_Cumulative p') i = Some NaN).
Proof.
  intros Hne [Hidx [Hc Hd]].
  unfold portfolio_step, frame_empty. rewrite Hidx.
  destruct idx as [|d0 idx0] eqn:Eidx; [congruence|]. rewrite <- Eidx in *.
  cbn [fst snd get_data index Returns].
  eexists; split; [reflexivity|].
  cbn [p_index p_Cumulative p_Daily_Return].
  assert (Hrow : forall i,
            (i < length idx)%nat ->
            exists x y, nth_error (p_Daily_Return p) i = Some x
                        /\ nth_error (p_Cumulative p) i = Some y).
  { intros i Hi.
    destruct (nth_error (p_Daily_Return p) i) as [x|] eqn:Ex.
    - destruct (nth_error (p_Cumulative p) i) as [y|] eqn:Ey; eauto.
      apply nth_error_None in Ey. lia.
    - apply nth_error_None in Ex. lia. }
  split; [|split; [|split]].
  - unfold frame_on. cbn [p_index p_Cumulative p_Daily_Return].
    rewrite !length_zipWith, !length_reindex. repeat split; lia.
  - intros i Hi. rewrite nth_error_zipWith, Hi, nth_error_reindex.
    destruct (nth_error idx i) as [d|] eqn:Ed; [reflexivity|].
    apply nth_error_None in Ed.
    assert (i < length (p_Daily_Return p))%nat
      by (apply nth_error_Some; rewrite Hi; discriminate).
    lia.
  - intros i Hi. rewrite nth_error_zipWith, Hi, nth_error_reindex.
    destruct (nth_error idx i) as [d|] eqn:Ed; [reflexivity|].
    apply nth_error_None in Ed.
    assert (i < length (p_Cumulative p))%nat
      by (apply nth_error_Some; rewrite Hi; discriminate).
    lia.
  - intros i d Hi Habs.
    assert (Hlt : (i < length idx)%nat)
      by (apply nth_error_Some; rewrite Hi; discriminate).
    destruct (Hrow i Hlt) as [x [y [Ex Ey]]].
    rewrite !nth_error_zipWith, Ex, Ey, !nth_error_reindex, Hi.
    cbn [option_map]. rewrite !lookup_absent by exact Habs.
    rewrite Fadd_nan_r, Fmul_nan_r. auto.
Qed.

Lemma portfolio_loop (idx : list Z) (rest : list (list Bar * Q))
    (p : PortfolioFrame) :
  idx <> [] -> frame_on idx p ->
  exists p',
    fold_left (portfolio_step sqrtQ w20 w50) rest (Some p) = Some p'
    /\ frame_on idx p'
    /\ (forall i, nth_error (p_Daily_Return p) i = Some NaN ->
                  nth_error (p_Daily_Return p') i = Some NaN)
    /\ (forall i, nth_error (p_Cumulative p) i = Some NaN ->
                  nth_error (p_Cumulative p') i = Some NaN)
    /\ (forall i d, nth_error idx i = Some d ->
          (exists bw, In bw rest /\ ~ In d (map fst (fst bw))) ->
          nth_error (p_Daily_Return p') i = Some NaN
          /\ nth_error (p_Cumulative p') i = Some NaN).
Proof.
  intros Hne. revert p.
  induction rest as [|[bars w] rest IH]; intros p Hp.
  - exists p. cbn [fold_left].
    split; [reflexivity|]. split; [exact Hp|].
    split; [auto|]. split; [auto|].
    intros i d _ [bw [[] _]].
  - cbn [fold_left].
    destruct (portfolio_step_next idx p bars w Hne Hp)
      as [p1 [E1 [Hp1 [Hd1 [Hc1 Hgap1]]]]].
    rewrite E1.
    destruct (IH p1 Hp1) as [p' [E' [Hp' [Hd' [Hc' Hgap']]]]].
    exists p'. split; [exact E'|]. split; [exact Hp'|].
    split; [auto|]. split; [auto|].
    intros i d Hi [bw [[<- | Hin] Habs]].
    + destruct (Hgap1 i d Hi Habs) as [G1 G2]. auto.
    + apply (Hgap' i d Hi). exists bw. auto.
Qed.

(** C8 (amended).  The composite keeps exactly the dates of the first
    constituent; a date of the first constituent that a later constituent
    lacks stays in the composite, with NaN as its daily return and as its
    cumulative value. *)
Theorem C8_alignment_gap (bars1 : list Bar) (w1 : Q)
    (rest : list (list Bar * Q)) :
  bars1 <> [] ->
  exists p,
    portfolio_data sqrtQ w20 w50 ((bars1, w1) :: rest) = Some p
    /\ p_index p = map fst bars1
    /\ forall i d,
         nth_error (p_index p) i = Some d ->
         (exists bw, In bw rest /\ ~ In d (map fst (fst bw))) ->
         nth_error (p_Daily_Return p) i = Some NaN
         /\ nth_error (p_Cumulative p) i = Some NaN.
Proof.
  intros Hne. unfold portfolio_data. cbn [fold_left].
  destruct (portfolio_step_first bars1 w1) as [p1 [E1 Hp1]]. rewrite E1.
  assert (Hidx : map fst bars1 <> []).
  { destruct bars1; [congruence | discriminate]. }
  destruct (portfolio_loop (map fst bars1) rest p1 Hidx Hp1)
    as [p [E [[Hi _] [_ [_ Hgap]]]]].
  exists p. split; [exact E|]. split; [exact Hi|].
  rewrite Hi. exact Hgap.
Qed.

(** With at least one ticker the loop leaves a frame with both columns. *)
Lemma portfolio_data_some (items : list (list Bar * Q)) :
  items <> [] -> exists p, portfolio_data sqrtQ w20 w50 items = Some p.
Proof.
  intros Hne. destruct items as [|[bars w] rest]; [congruence|].
  unfold portfolio_data. cbn [fold_left].
  assert (Hsome : forall l st, exists p,
            fold_left (portfolio_step sqrtQ w20 w50) l (Some st) = Some p).
  { induction l as [|[b x] l IH]; intros st; cbn [fold_left]; eauto.
    assert (exists q, portfolio_step sqrtQ w20 w50 (Some st) (b, x) = Some q)
      as [q ->]; [|apply IH].
    unfold portfolio_step. destruct (frame_empty (Some st)); eauto. }
  destruct (portfolio_step_first bars w) as [p1 [-> _]]. apply Hsome.
Qed.

(** The loop for weights of any value, at finite weights, is the loop for
    rational weights. *)
Lemma portfolio_data_F_fin (items : list (list Bar * Q)) :
  portfolio_data_F sqrtQ w20 w50
    (map (fun item => (fst item, Fin (snd item))) items)
  = portfolio_data sqrtQ w20 w50 items.
Proof.
  unfold portfolio_data_F, portfolio_data. generalize (@None PortfolioFrame).
  induction items as [|[bars w] items IH]; intros st; [reflexivity|].
  cbn [map fold_left fst snd]. rewrite IH. reflexivity.
Qed.

Lemma portfolio_metrics_F_fin (items : list (list Bar * Q)) :
  portfolio_metrics_F sqrtQ w20 w50
    (map (fun item => (fst item, Fin (snd item))) items)
  = portfolio_metrics sqrtQ w20 w50 items.
Proof.
  unfold portfolio_metrics_F, portfolio_metrics.
  rewrite portfolio_data_F_fin. reflexivity.
Qed.

Lemma combine_map_Fin {A : Type} (l : list A) (qs : list Q) :
  combine l (map Fin qs)
  = map (fun item => (fst item, Fin (snd item))) (combine l qs).
Proof.
  revert qs. induction l as [|x l IH]; intros [|q qs]; simpl; auto.
  rewrite IH. reflexivity.
Qed.

Lemma portfolio_data_F_some (items : list (list Bar * F)) :
  items <> [] -> exists p, portfolio_data_F sqrtQ w20 w50 items = Some p.
Proof.
  intros Hne. destruct items as [|[bars w] rest]; [congruence|].
  unfold portfolio_data_F. cbn [fold_left].
  assert (Hsome : forall l st, exists p,
            fold_left (portfolio_step_F sqrtQ w20 w50) l (Some st) = Some p).
  { induction l as [|[b x] l IH]; intros st; cbn [fold_left]; eauto.
    assert (exists q, portfolio_step_F sqrtQ w20 w50 (Some st) (b, x) = Some q)
      as [q ->]; [|apply IH].
    unfold portfolio_step_F. destruct (frame_empty (Some st)); eauto. }
  apply Hsome.
Qed.

(** With one weight per ticker and at least one ticker the metrics of the
    portfolio are computed. *)
Lemma portfolio_metrics_F_some (portfolio_tickers : list (list Bar))
    (weights : list float) :
  portfolio_tickers <> [] ->
  length weights = length portfolio_tickers ->
  exists m,
    portfolio_metrics_F sqrtQ w20 w50
      (combine portfolio_tickers (map Fvalue weights)) = Some m.
Proof.
  intros Hne Hlen.
  destruct (portfolio_data_F_some
              (combine portfolio_tickers (map Fvalue weights))) as [p Hp].
  { destruct portfolio_tickers; [congruence|].
    destruct weights; discriminate. }
  unfold portfolio_metrics_F. rewrite Hp. eauto.
Qed.

(** C9 (amended).  With the portfolio view enabled, one weight per ticker
    and at least one ticker: the metrics of the portfolio are computed from
    the tickers and the weights and shown, whatever the weights sum to (for
    finite weights they are [portfolio_metrics] at the weights' values);
    the sidebar shows the message when [abs(s - 1) > 0.01] holds on doubles,
    [s] being the double [sum(weights)] returns, and nothing when it does
    not. *)
Theorem C9_weight_mismatch_warning (float_sum : list float -> float)
    (portfolio_tickers : list (list Bar)) (weights : list float) :
  portfolio_tickers <> [] ->
  length weights = length portfolio_tickers ->
  let r := portfolio_section sqrtQ float_sum w20 w50 true
             portfolio_tickers weights in
  let s := float_sum weights in
  (exists m,
     portfolio_metrics_F sqrtQ w20 w50
       (combine portfolio_tickers (map Fvalue weights)) = Some m
     /\ snd r = Shown m
     /\ (forall qs,
           map Fvalue weights = map Fin qs ->
           portfolio_metrics sqrtQ w20 w50 (combine portfolio_tickers qs)
           = Some m))
  /\ (PrimFloat.ltb tolerance (PrimFloat.abs (PrimFloat.sub s 1%float)) = true ->
      fst r = [SidebarError "Weights must sum to 1"%string])
  /\ (PrimFloat.ltb tolerance (PrimFloat.abs (PrimFloat.sub s 1%float)) = false ->
      fst r = []).
Proof.
  intros Hne Hlen. unfold portfolio_section.
  destruct portfolio_tickers as [|t ts] eqn:Et; [congruence|].
  rewrite <- Et in *. cbn [fst snd].
  split; [|split].
  - rewrite Hlen, Nat.eqb_refl.
    destruct (portfolio_metrics_F_some portfolio_tickers weights Hne Hlen)
      as [m Hm].
    exists m. split; [exact Hm|]. rewrite Hm. split; [reflexivity|].
    intros qs Hqs. rewrite Hqs, combine_map_Fin, portfolio_metrics_F_fin in Hm.
    exact Hm.
  - intros Hgt. unfold sidebar_weights, weights_mismatch.
    rewrite Hgt. reflexivity.
  - intros Hle. unfold sidebar_weights, weights_mismatch.
    rewrite Hle. reflexivity.
Qed.

End Portfolio.

(** ** The portfolio over tickers with the same dates *)

Lemma lookup_head (d : Z) (idx : list Z) (v : F) (vals : Series) :
  lookup d (d :: idx) (v :: vals) = v.
Proof. unfold lookup. cbn [combine find fst]. rewrite Z.eqb_refl. reflexivity. Qed.

Lemma lookup_tail (d k : Z) (idx : list Z) (v : F) (vals : Series) :
  k <> d -> lookup d (k :: idx) (v :: vals) = lookup d idx vals.
Proof.
  intros H. unfold lookup. cbn [combine find fst].
  destruct (Z.eqb_spec k d); [contradiction | reflexivity].
Qed.

(** Re-indexing a Series on its own index of distinct dates changes
    nothing. *)
Lemma reindex_same (idx : list Z) (vals : Series) :
  NoDup idx -> length vals = length idx -> reindex idx idx vals = vals.
Proof.
  unfold reindex. revert vals.
  induction idx as [|k idx IH]; intros vals Hnd Hlen.
  - destruct vals; [reflexivity | discriminate].
  - destruct vals as [|v vals]; [discriminate|].
    inversion Hnd as [|? ? Hk Hnd']; subst.
    cbn [map]. rewrite lookup_head. f_equal.
    transitivity (map (fun d => lookup d idx vals) idx).
    + apply map_ext_in. intros d Hd. apply lookup_tail.
      intros ->. contradiction.
    + apply IH; [exact Hnd' | simpl in Hlen; lia].
Qed.

Lemma nth_error_fold_zipWith (f : F -> F -> F) (cols : list Series)
    (col : Series) (i : nat) (x : F) :
  nth_error col i = Some x ->
  Forall (fun c => (i < length c)%nat) cols ->
  nth_error (fold_left (zipWith f) cols col) i
  = Some (fold_left f (map (fun c => nth i c NaN) cols) x).
Proof.
  revert col x. induction cols as [|c cols IH]; intros col x Hx Hall.
  - exact Hx.
  - inversion Hall as [|? ? Hc Hcols]; subst.
    cbn [fold_left map]. apply IH; [|exact Hcols].
    rewrite nth_error_zipWith, Hx.
    rewrite (nth_error_nth' c NaN Hc). reflexivity.
Qed.

Section AlignedPortfolio.

Variable sqrtQ : Q -> Q.
Variables w20 w50 : nat.

Local Abbreviation weighted := (weighted_return sqrtQ w20 w50).

Lemma length_weighted_return (item : list Bar * Q) :
  length (weighted item) = length (fst item).
Proof.
  unfold weighted. cbn [get_data Returns].
  rewrite length_map, length_returns_of. unfold close_of.
  apply length_map.
Qed.

Lemma portfolio_step_aligned (idx : list Z) (p : PortfolioFrame)
    (item : list Bar * Q) :
  idx <> [] -> NoDup idx -> frame_on idx p -> map fst (fst item) = idx ->
  portfolio_step sqrtQ w20 w50 (Some p) item
  = Some {| p_index := idx;
            p_Cumulative :=
              zipWith Fmul (p_Cumulative p)
                (map (fun r => (Fin 1 + r)%F) (weighted item));
            p_Daily_Return :=
              zipWith Fadd (p_Daily_Return p) (weighted item) |}.
Proof.
  intros Hne Hnd [Hidx [Hc Hd]] Hitem.
  assert (Hlen : length (weighted item) = length idx).
  { rewrite length_weighted_return, <- Hitem. symmetry. apply length_map. }
  unfold portfolio_step, frame_empty. rewrite Hidx.
  destruct idx as [|d0 idx0] eqn:Eidx; [congruence|]. rewrite <- Eidx in *.
  cbn [get_data index Returns]. fold (weighted item).
  change (returns_of (close_of (fst item)))
    with (Returns (get_data sqrtQ w20 w50 (fst item))).
  fold (weighted item).
  rewrite Hitem, !reindex_same; auto.
  rewrite length_map. exact Hlen.
Qed.

(** Over tickers with the same distinct dates the loop adds the weighted
    returns column by column, and multiplies the cumulative product of the
    first ticker's factors by the daily factors of the others. *)
Lemma portfolio_data_aligned (first : list Bar * Q)
    (rest : list (list Bar * Q)) :
  fst first <> [] -> NoDup (map fst (fst first)) ->
  Forall (fun item => map fst (fst item) = map fst (fst first)) rest ->
  exists p,
    portfolio_data sqrtQ w20 w50 (first :: rest) = Some p
    /\ p_index p = map fst (fst first)
    /\ p_Daily_Return p
       = fold_left (zipWith Fadd) (map weighted rest)
           (weighted first)
    /\ p_Cumulative p
       = fold_left (zipWith Fmul)
           (map (fun item =>
                   map (fun r => (Fin 1 + r)%F) (weighted item)) rest)
           (cumprod (map (fun r => (Fin 1 + r)%F) (weighted first))).
Proof.
  intros Hne Hnd Hall. destruct first as [bars1 w1]. cbn [fst] in *.
  set (idx := map fst bars1) in *.
  assert (Hidx : idx <> []) by (unfold idx; destruct bars1; [congruence | discriminate]).
  unfold portfolio_data. cbn [fold_left].
  destruct (portfolio_step_first sqrtQ w20 w50 bars1 w1) as [p1 [E1 Hp1]].
  rewrite E1. fold idx in Hp1.
  assert (Hd1 : p_Daily_Return p1 = weighted (bars1, w1)).
  { cbn in E1. injection E1 as <-. reflexivity. }
  assert (Hc1 : p_Cumulative p1
                = cumprod (map (fun r => (Fin 1 + r)%F)
                             (weighted (bars1, w1)))).
  { cbn in E1. injection E1 as <-. reflexivity. }
  rewrite <- Hc1, <- Hd1. clear Hd1 Hc1 E1.
  revert p1 Hp1. induction rest as [|item rest IH]; intros p1 Hp1.
  - exists p1. cbn [fold_left map]. destruct Hp1 as [H1 _]. auto.
  - inversion Hall as [|? ? Hitem Hrest]; subst.
    cbn [fold_left map].
    rewrite (portfolio_step_aligned idx p1 item Hidx Hnd Hp1 Hitem).
    match goal with
    | |- context [fold_left _ rest (Some ?q)] =>
        destruct (IH Hrest q) as [p [E [Hi [Hd Hc]]]]
    end.
    + destruct Hp1 as [_ [Hc Hd]].
      assert (Hlen : length (weighted item) = length idx).
      { rewrite length_weighted_return, <- Hitem. symmetry. apply length_map. }
      unfold frame_on. cbn [p_index p_Cumulative p_Daily_Return].
      rewrite !length_zipWith, length_map. repeat split; lia.
    + exists p. cbn [p_index p_Cumulative p_Daily_Return] in *. auto.
Qed.

(** The part of C1 that holds: over tickers with the same distinct dates the
    composite daily return of every row is the sum of the constituents'
    weighted daily returns of that row. *)
Lemma portfolio_daily_weighted_sum (first : list Bar * Q)
    (rest : list (list Bar * Q)) (i : nat) :
  fst first <> [] -> NoDup (map fst (fst first)) ->
  Forall (fun item => map fst (fst item) = map fst (fst first)) rest ->
  (i < length (fst first))%nat ->
  exists p,
    portfolio_data sqrtQ w20 w50 (first :: rest) = Some p
    /\ nth_error (p_Daily_Return p) i
       = Some (fold_left Fadd
                 (map (fun item => nth i (weighted item) NaN) rest)
                 (nth i (weighted first) NaN)).
Proof.
  intros Hne Hnd Hall Hi.
  destruct (portfolio_data_aligned first rest Hne Hnd Hall)
    as [p [E [_ [Hd _]]]].
  exists p. split; [exact E|]. rewrite Hd.
  rewrite (nth_error_fold_zipWith Fadd (map weighted rest)
             (weighted first) i (nth i (weighted first) NaN)).
  - rewrite map_map. reflexivity.
  - apply nth_error_nth'. rewrite length_weighted_return. exact Hi.
  - rewrite Forall_forall in *. intros c Hc.
    apply in_map_iff in Hc as [item [<- Hin]].
    rewrite length_weighted_return.
    rewrite <- (length_map fst (fst item)), (Hall item Hin), length_map.
    exact Hi.
Qed.

End AlignedPortfolio.

(** ** The model at concrete series *)

Lemma heron_sqrt_zero (q : Q) : q == 0 -> heron_sqrt q == 0.
Proof.
  intros H. unfold heron_sqrt.
  replace (Qeq_bool q 0) with true by (symmetry; apply Qeq_bool_iff; exact H).
  reflexivity.
Qed.

Lemma five_bars_positive : positive_closes five_bars.
Proof. repeat (constructor; [reflexivity|]). constructor. Qed.

Lemma C6_moving_average_witness :
  moving_average_spec 3 (map snd five_bars)
    (MA20 (get_data heron_sqrt 3 50 five_bars))
  /\ moving_average_spec 50 (map snd five_bars)
       (MA50 (get_data heron_sqrt 3 50 five_bars)).
Proof.
  apply (C6_moving_average heron_sqrt 3 50 five_bars); lia.
Defined.

Lemma C2_cumulative_product_witness :
  nth_error (Cumulative (get_data heron_sqrt 20 50 five_bars)) 0 = Some NaN
  /\ forall i, (1 <= i < length five_bars)%nat ->
       nth_error (Cumulative (get_data heron_sqrt 20 50 five_bars)) i
       = Some (Fprod (map (fun r => (Fin 1 + r)%F)
                        (firstn i
                           (skipn 1
                              (Returns (get_data heron_sqrt 20 50 five_bars)))))).
Proof.
  apply (C2_cumulative_product heron_sqrt 20 50 five_bars).
  - discriminate.
  - exact five_bars_positive.
Defined.

(** C2, as stated, fails on row 0: the cumulative growth of the first row is
    NaN, not 1. *)
Lemma C2_counterexample :
  nth_error (Cumulative (get_data heron_sqrt 20 50 two_bars)) 0 = Some NaN
  /\ ~ (exists c,
          nth_error (Cumulative (get_data heron_sqrt 20 50 two_bars)) 0 = Some c
          /\ c =f= Fin 1).
Proof.
  split; [reflexivity|].
  intros [c [Hc Ec]]. cbn in Hc. injection Hc as <-. exact Ec.
Qed.

Lemma C10_cumulative_telescopes_witness :
  exists v,
    nth_error (Cumulative (get_data heron_sqrt 20 50 five_bars)) 4
    = Some (Fin v)
    /\ v == 107 / 100.
Proof.
  apply (proj1 (C10_cumulative_telescopes heron_sqrt 20 50 five_bars
                  five_bars_positive) 4%nat 100 107).
  - lia.
  - reflexivity.
  - reflexivity.
Defined.

Lemma C7_drawdown_witness :
  (forall i x,
     nth_error (Drawdown (get_data heron_sqrt 20 50 five_bars)) i = Some x ->
     x = NaN \/ exists d, x = Fin d /\ d <= 0)
  /\ (forall i c,
        nth_error (Cumulative (get_data heron_sqrt 20 50 five_bars)) i
        = Some (Fin c) ->
        (forall j c', (j < i)%nat ->
           nth_error (Cumulative (get_data heron_sqrt 20 50 five_bars)) j
           = Some (Fin c') -> c' <= c) ->
        exists d,
          nth_error (Drawdown (get_data heron_sqrt 20 50 five_bars)) i
          = Some (Fin d) /\ d == 0).
Proof.
  apply (C7_drawdown heron_sqrt 20 50 five_bars).
  exact five_bars_positive.
Defined.

Lemma C3_rsi_zero_loss_witness :
  exists g,
    nth_error (rsi_gain (Close (get_data heron_sqrt 20 50 rising_14_bars))) 13
    = Some (Fin g)
    /\ 0 <= g
    /\ (0 < g ->
        exists r,
          nth_error (RSI (get_data heron_sqrt 20 50 rising_14_bars)) 13 = Some r
          /\ r =f= Fin 100)
    /\ (g == 0 ->
        nth_error (RSI (get_data heron_sqrt 20 50 rising_14_bars)) 13
        = Some NaN).
Proof.
  apply (C3_rsi_zero_loss heron_sqrt 20 50 rising_14_bars 13 (0 # 14)).
  - vm_compute. reflexivity.
  - reflexivity.
Defined.

(** C3, as stated, fails on a flat series: on row 13 the window is full, the
    average loss is 0, and the RSI is NaN. *)
Lemma C3_counterexample :
  (exists l,
     nth_error (rsi_loss (Close (get_data heron_sqrt 20 50 flat_14_bars))) 13
     = Some (Fin l) /\ l == 0)
  /\ nth_error (RSI (get_data heron_sqrt 20 50 flat_14_bars)) 13 = Some NaN.
Proof.
  split.
  - exists (0 # 14). split; [vm_compute; reflexivity | reflexivity].
  - vm_compute. reflexivity.
Qed.

Lemma C4_sharpe_zero_volatility_witness :
  (exists v,
     std heron_sqrt (Returns (get_data heron_sqrt 20 50 flat_bars)) = Fin v
     /\ v == 0)
  /\ Sharpe (get_data heron_sqrt 20 50 flat_bars) = Fin 0.
Proof.
  apply (proj2 (C4_sharpe_zero_volatility heron_sqrt heron_sqrt_zero
                  20 50 flat_bars) 5).
  - reflexivity.
  - simpl. lia.
  - repeat (constructor; [reflexivity|]). constructor.
Defined.

(** C4, as stated, fails on a series with a single defined return: its
    sample standard deviation is NaN, not 0, and so is its Sharpe ratio. *)
Lemma C4_counterexample :
  length (filter notna (Returns (get_data heron_sqrt 20 50 two_bars))) = 1%nat
  /\ std heron_sqrt (Returns (get_data heron_sqrt 20 50 two_bars)) = NaN
  /\ Sharpe (get_data heron_sqrt 20 50 two_bars) = NaN
  /\ ~ Sharpe (get_data heron_sqrt 20 50 two_bars) =f= Fin 0.
Proof.
  repeat split; try (vm_compute; reflexivity).
  vm_compute. auto.
Qed.

Lemma C8_alignment_gap_witness :
  exists p,
    portfolio_data heron_sqrt 20 50
      [(growing_bars, 1 # 2); (gapped_bars, 1 # 2)] = Some p
    /\ p_index p = map fst growing_bars
    /\ forall i d,
         nth_error (p_index p) i = Some d ->
         (exists bw, In bw [(gapped_bars, 1 # 2)]
                     /\ ~ In d (map fst (fst bw))) ->
         nth_error (p_Daily_Return p) i = Some NaN
         /\ nth_error (p_Cumulative p) i = Some NaN.
Proof.
  apply (C8_alignment_gap heron_sqrt 20 50 growing_bars (1 # 2)
           [(gapped_bars, 1 # 2)]).
  discriminate.
Defined.

(** C8, as stated, fails when the second ticker lacks the second day of the
    first: that day is in the composite, with NaN. *)
Lemma C8_counterexample :
  exists p,
    portfolio_data heron_sqrt 20 50
      [(growing_bars, 1 # 2); (gapped_bars, 1 # 2)] = Some p
    /\ ~ In 1%Z (map fst gapped_bars)
    /\ nth_error (p_index p) 1 = Some 1%Z
    /\ nth_error (p_Daily_Return p) 1 = Some NaN
    /\ nth_error (p_Cumulative p) 1 = Some NaN.
Proof.
  eexists. split; [reflexivity|].
  split; [|repeat split].
  intros [H | [H | []]]; discriminate.
Qed.

Lemma C9_weight_mismatch_warning_witness :
  (exists m,
     portfolio_metrics_F heron_sqrt 20 50
       (combine [growing_bars; five_bars; flat_bars]
          (map Fvalue weights_over)) = Some m
     /\ snd (portfolio_section heron_sqrt sum_left 20 50 true
               [growing_bars; five_bars; flat_bars] weights_over) = Shown m)
  /\ fst (portfolio_section heron_sqrt sum_left 20 50 true
            [growing_bars; five_bars; flat_bars] weights_over)
     = [SidebarError "Weights must sum to 1"%string]
  /\ fst (portfolio_section heron_sqrt sum_left 20 50 true
            [growing_bars; five_bars; flat_bars] weights_exact)
     = [].
Proof.
  destruct (C9_weight_mismatch_warning heron_sqrt 20 50 sum_left
              [growing_bars; five_bars; flat_bars] weights_over
              ltac:(discriminate) eq_refl) as [[m [H0 [H1 _]]] [H2 _]].
  destruct (C9_weight_mismatch_warning heron_sqrt 20 50 sum_left
              [growing_bars; five_bars; flat_bars] weights_exact
              ltac:(discriminate) eq_refl) as [_ [_ H3]].
  split; [exists m; split; [exact H0 | exact H1]|]. split.
  - apply H2. vm_compute. reflexivity.
  - apply H3. vm_compute. reflexivity.
Defined.

(** C9, as stated, fails at the edge of the tolerance.  The weights 0.33,
    0.33, 0.33 sum to 0.99, within 0.01 of 1, as do the exact values of
    their doubles; the double [sum] returns is the one below 0.99 and the
    message is shown, under both summations. *)
Lemma C9_counterexample :
  Qabs (sum [33 # 100; 33 # 100; 33 # 100] - 1) <= 1 # 100
  /\ (exists qs,
        map Fvalue weights_thirds = map Fin qs
        /\ Qabs (sum qs - 1) <= 1 # 100)
  /\ fst (portfolio_section heron_sqrt sum_left 20 50 true
            [growing_bars; five_bars; flat_bars] weights_thirds)
     = [SidebarError "Weights must sum to 1"%string]
  /\ fst (portfolio_section heron_sqrt sum_compensated 20 50 true
            [growing_bars; five_bars; flat_bars] weights_thirds)
     = [SidebarError "Weights must sum to 1"%string].
Proof.
  split; [vm_compute; discriminate|]. split.
  - exists [5944751508129055 # 18014398509481984;
            5944751508129055 # 18014398509481984;
            5944751508129055 # 18014398509481984].
    split; [vm_compute; reflexivity|]. vm_compute. discriminate.
  - split; vm_compute; reflexivity.
Qed.

(** C1: the code at two tickers of equal closes and weight 1/2 each.  The
    composite daily return is the weighted sum of the two returns, 1/10 on
    both days; the composite cumulative column is not the cumulative product
    of [1 + composite daily return], which is 11/10 and 121/100: the code
    gives 1.1025 and 1.157625. *)
Theorem C1_cumulative_at_failing_input :
  exists p,
    portfolio_data heron_sqrt 20 50
      [(growing_bars, 1 # 2); (growing_bars, 1 # 2)] = Some p
    /\ Forall2 Feq (p_Daily_Return p) [NaN; Fin (1 # 10); Fin (1 # 10)]
    /\ Forall2 Feq (cumprod (map (fun r => (Fin 1 + r)%F) (p_Daily_Return p)))
         [NaN; Fin (11 # 10); Fin (121 # 100)]
    /\ Forall2 Feq (p_Cumulative p)
         [NaN; Fin (11025 # 10000); Fin (1157625 # 1000000)]
    /\ ~ Forall2 Feq (p_Cumulative p)
           (cumprod (map (fun r => (Fin 1 + r)%F) (p_Daily_Return p))).
Proof.
  eexists. split; [reflexivity|].
  cbn [p_Daily_Return p_Cumulative].
  split; [|split; [|split]].
  - vm_compute. repeat constructor.
  - vm_compute. repeat constructor.
  - vm_compute. repeat constructor.
  - vm_compute. intros H.
    inversion H as [|? ? ? ? _ H1]; subst.
    inversion H1 as [|? ? ? ? E _]; subst.
    vm_compute in E. discriminate.
Qed.

(** * Further properties of the script *)

(** ** The columns of [get_data] *)

Lemma length_cummax_from (xs : Series) (acc : F) :
  length (cummax_from acc xs) = length xs.
Proof.
  revert acc. induction xs as [|x xs IH]; intros acc; simpl; auto.
  destruct (isnan x); simpl; rewrite IH; reflexivity.
Qed.

Lemma length_diff (xs : Series) : length (diff xs) = length xs.
Proof. unfold diff. rewrite length_zipWith, length_shift. lia. Qed.

Lemma length_rsi_of (xs : Series) : length (rsi_of xs) = length xs.
Proof.
  unfold rsi_of, rsi_gain, rsi_loss, Series_where.
  rewrite length_map, length_zipWith, !length_rolling_mean, !length_map,
    length_diff.
  lia.
Qed.

Lemma length_drawdown_of (xs : Series) : length (drawdown_of xs) = length xs.
Proof.
  unfold drawdown_of, cummax.
  rewrite !length_zipWith, length_cummax_from. lia.
Qed.

Lemma length_cumulative_of (xs : Series) :
  length (cumulative_of xs) = length xs.
Proof.
  unfold cumulative_of, cumprod. rewrite length_cumprod_from, length_map.
  reflexivity.
Qed.

(** X1.  The frame [get_data] returns is well formed: the index and the seven
    columns that are Series all have one row per bar of the history. *)
Theorem get_data_columns (sqrtQ : Q -> Q) (w20 w50 : nat) (bars : list Bar) :
  let df := get_data sqrtQ w20 w50 bars in
  let n := length bars in
  length (index df) = n /\ length (Close df) = n
  /\ length (MA20 df) = n /\ length (MA50 df) = n
  /\ length (Returns df) = n /\ length (Cumulative df) = n
  /\ length (RSI df) = n /\ length (Drawdown df) = n.
Proof.
  cbn [get_data index Close MA20 MA50 Returns Cumulative RSI Drawdown].
  assert (Hc : length (close_of bars) = length bars)
    by (unfold close_of; apply length_map).
  rewrite length_drawdown_of, length_rsi_of, length_cumulative_of,
    !length_rolling_mean, length_returns_of, length_map, Hc.
  repeat split; reflexivity.
Qed.

(** ** The daily returns *)

Lemma nth_error_shift_S (xs : Series) (i : nat) :
  (S i < length xs)%nat -> nth_error (shift xs) (S i) = nth_error xs i.
Proof.
  intros H. unfold shift. rewrite nth_error_firstn.
  replace (S i <? length xs)%nat with true by (symmetry; apply Nat.ltb_lt; lia).
  reflexivity.
Qed.

Lemma nth_error_shift_0 (xs : Series) :
  xs <> [] -> nth_error (shift xs) 0 = Some NaN.
Proof. destruct xs; [congruence | reflexivity]. Qed.

(** A row of [pct_change] after the first. *)
Lemma pct_change_S (xs : Series) (i : nat) (p c : F) :
  nth_error xs i = Some p -> nth_error xs (S i) = Some c ->
  nth_error (pct_change xs) (S i) = Some (c / p - Fin 1)%F.
Proof.
  intros Hp Hc. unfold pct_change.
  rewrite nth_error_map, nth_error_zipWith, Hc, nth_error_shift_S, Hp.
  - reflexivity.
  - apply nth_error_Some. rewrite Hc. discriminate.
Qed.

Lemma nth_error_close_of (bars : list Bar) (i : nat) :
  nth_error (close_of bars) i = option_map Fin (nth_error (map snd bars) i).
Proof. rewrite close_of_fin. apply nth_error_map. Qed.

(** X2.  The first daily return is NaN.  After a close [p] that is not zero
    the return of the next close [c] is [c / p - 1]; after a close of zero
    nothing is raised: the return of a positive close is plus infinity. *)
Theorem returns_rows (sqrtQ : Q -> Q) (w20 w50 : nat) (bars : list Bar) :
  let df := get_data sqrtQ w20 w50 bars in
  (bars <> [] -> nth_error (Returns df) 0 = Some NaN)
  /\ (forall i p c,
        nth_error (map snd bars) i = Some p ->
        nth_error (map snd bars) (S i) = Some c ->
        (~ p == 0 -> nth_error (Returns df) (S i) = Some (Fin (c / p - 1)))
        /\ (p == 0 -> 0 < c -> nth_error (Returns df) (S i) = Some PInf)).
Proof.
  cbn [get_data Returns]. unfold returns_of. split.
  - intros Hne. unfold pct_change.
    rewrite nth_error_map, nth_error_zipWith, nth_error_shift_0.
    + destruct bars; [congruence | reflexivity].
    + destruct bars; [congruence | discriminate].
  - intros i p c Hp Hc.
    assert (E : nth_error (pct_change (close_of bars)) (S i)
                = Some (Fin c / Fin p - Fin 1)%F).
    { apply pct_change_S; rewrite nth_error_close_of.
      - rewrite Hp. reflexivity.
      - rewrite Hc. reflexivity. }
    rewrite E. split.
    + intros Hnz. rewrite Fdiv_fin by exact Hnz. reflexivity.
    + intros Hz Hpos. cbn [Fdiv].
      replace (Qeq_bool p 0) with true
        by (symmetry; apply Qeq_bool_iff; exact Hz).
      unfold Finf_scale. rewrite (proj1 (Qgt_alt c 0) Hpos). reflexivity.
Qed.

(** ** The Sharpe ratio of a short history *)

Lemma Fdiv_nan_r (x : F) : (x / NaN)%F = NaN.
Proof. destruct x; reflexivity. Qed.

Lemma std_of_few_returns (sqrtQ : Q -> Q) (returns : Series) :
  (length (filter notna returns) <= 1)%nat ->
  std sqrtQ returns = NaN.
Proof.
  intros H. unfold std, var.
  replace (length (filter notna returns) <=? 1)%nat with true
    by (symmetry; apply Nat.leb_le; exact H).
  reflexivity.
Qed.

Lemma sharpe_of_few_returns (sqrtQ : Q -> Q) (returns : Series) :
  (length (filter notna returns) <= 1)%nat ->
  sharpe_of sqrtQ returns = NaN.
Proof.
  intros H. unfold sharpe_of. rewrite (std_of_few_returns sqrtQ returns H).
  cbn [Fneb]. rewrite Fdiv_nan_r. reflexivity.
Qed.

Lemma few_returns_of_short_history (bars : list Bar) :
  (length bars <= 2)%nat ->
  (length (filter notna (returns_of (close_of bars))) <= 1)%nat.
Proof.
  intros H.
  destruct bars as [|b1 [|b2 [|b3 bars]]]; try (simpl in H; lia).
  - simpl. lia.
  - simpl. lia.
  - unfold returns_of, pct_change, shift, zipWith, close_of.
    cbn [map length firstn combine fst snd filter].
    cbn [Fdiv Fsub Fadd Fopp notna isnan negb].
    match goal with
    | |- context [notna ?x] => destruct (notna x)
    end; simpl; lia.
Qed.

(** X3.  With fewer than two defined returns the standard deviation of the
    returns is missing (NaN) and the Sharpe ratio is NaN, whatever the
    closes; this is the case of every history of at most two bars. *)
Theorem sharpe_short_history (sqrtQ : Q -> Q) (w20 w50 : nat)
    (bars : list Bar) :
  let df := get_data sqrtQ w20 w50 bars in
  (length (filter notna (Returns df)) <= 1)%nat \/ (length bars <= 2)%nat ->
  std sqrtQ (Returns df) = NaN /\ Sharpe df = NaN.
Proof.
  cbn [get_data Returns Sharpe]. intros H.
  assert (Hfew : (length (filter notna (returns_of (close_of bars))) <= 1)%nat).
  { destruct H as [H | H]; [exact H|].
    apply few_returns_of_short_history. exact H. }
  split.
  - apply std_of_few_returns. exact Hfew.
  - apply sharpe_of_few_returns. exact Hfew.
Qed.

(** ** The RSI *)

Lemma gain_part_nonneg (d : Q) : 0 <= gain_part d.
Proof.
  unfold gain_part. destruct (Qle_bool d 0) eqn:E; cbn [negb]; [lra|].
  destruct (Qlt_le_dec 0 d) as [L | L]; [lra|].
  apply Qle_bool_iff in L. congruence.
Qed.

Lemma loss_part_nonneg (d : Q) : 0 <= loss_part d.
Proof.
  unfold loss_part. destruct (Qle_bool 0 d) eqn:E; cbn [negb]; [lra|].
  destruct (Qlt_le_dec d 0) as [L | L]; [lra|].
  apply Qle_bool_iff in L. congruence.
Qed.

Lemma where_gains (closes : list Q) :
  Series_where (fun d => Fgtb d (Fin 0)) (Fin 0) (diff (map Fin closes))
  = map Fin (gains closes).
Proof.
  destruct closes as [|c0 cs]; [reflexivity|].
  rewrite diff_fin. unfold Series_where, gains. cbn [map Fgtb Fltb]. f_equal.
  rewrite !map_map. apply map_ext. intros d. unfold gain_part. cbn.
  destruct (Qle_bool d 0); reflexivity.
Qed.

Lemma where_losses (closes : list Q) :
  map Fopp
    (Series_where (fun d => Fltb d (Fin 0)) (Fin 0) (diff (map Fin closes)))
  = map Fin (losses closes).
Proof.
  destruct closes as [|c0 cs]; [reflexivity|].
  rewrite diff_fin. unfold Series_where, losses. cbn [map Fltb Fopp]. f_equal.
  rewrite !map_map. apply map_ext. intros d. unfold loss_part. cbn.
  destruct (Qle_bool 0 d); reflexivity.
Qed.

Lemma length_gains (closes : list Q) : length (gains closes) = length closes.
Proof.
  destruct closes; simpl; auto. rewrite length_map, length_differences.
  reflexivity.
Qed.

Lemma length_losses (closes : list Q) : length (losses closes) = length closes.
Proof.
  destruct closes; simpl; auto. rewrite length_map, length_differences.
  reflexivity.
Qed.

Lemma gains_nonneg (closes : list Q) : Forall (fun g => 0 <= g) (gains closes).
Proof.
  destruct closes as [|c0 cs]; constructor; [lra|].
  rewrite Forall_forall. intros g Hg.
  apply in_map_iff in Hg as [d [<- _]]. apply gain_part_nonneg.
Qed.

Lemma losses_nonneg (closes : list Q) :
  Forall (fun l => 0 <= l) (losses closes).
Proof.
  destruct closes as [|c0 cs]; constructor; [lra|].
  rewrite Forall_forall. intros g Hg.
  apply in_map_iff in Hg as [d [<- _]]. apply loss_part_nonneg.
Qed.

Lemma window_average_nonneg (w i : nat) (qs : list Q) :
  (0 < w)%nat -> Forall (fun q => 0 <= q) qs -> 0 <= window_average w i qs.
Proof.
  intros Hw Hqs. unfold window_average.
  apply Qle_shift_div_l; [apply QofNat_pos; exact Hw|].
  assert (0 <= sum (firstn w (skipn (i + 1 - w) qs))).
  { apply sum_from_nonneg; [lra|]. apply Forall_firstn, Forall_skipn, Hqs. }
  lra.
Qed.

(** The RSI row by row: NaN while the window of 14 rows is not full, and on
    a later row the formula on the averages of the window. *)
Lemma rsi_of_row (closes : list Q) (i : nat) :
  (i < length closes)%nat ->
  nth_error (rsi_of (map Fin closes)) i
  = Some (if (i + 1 <? 14)%nat then NaN
          else rsi_of_rs (Fin (window_average 14 i (gains closes))
                          / Fin (window_average 14 i (losses closes)))%F).
Proof.
  intros Hi. unfold rsi_of, rsi_gain, rsi_loss.
  rewrite where_gains, where_losses.
  rewrite nth_error_map, nth_error_zipWith.
  rewrite !rolling_mean_fin_nth
    by (try lia; rewrite ?length_gains, ?length_losses; exact Hi).
  destruct (i + 1 <? 14)%nat; reflexivity.
Qed.

(** The formula on two non-negative averages gives NaN or a value between 0
    and 100. *)
Lemma rsi_of_rs_range (g l : Q) :
  0 <= g -> 0 <= l ->
  let x := rsi_of_rs (Fin g / Fin l)%F in
  x = NaN \/ exists r, x = Fin r /\ 0 <= r <= 100.
Proof.
  intros Hg Hl. cbn zeta. unfold rsi_of_rs. cbn [Fdiv].
  destruct (Qeq_bool l 0) eqn:El.
  - unfold Finf_scale. destruct (g ?= 0) eqn:Eg.
    + left. reflexivity.
    + apply Qlt_alt in Eg. lra.
    + right. cbn. eexists; split; [reflexivity|]. lra.
  - assert (Hl0 : 0 < l).
    { destruct (Qlt_le_dec 0 l) as [L | L]; [exact L|].
      assert (l == 0) by lra. apply Qeq_bool_iff in H. congruence. }
    assert (Hq : 0 <= g / l) by (apply Qle_shift_div_l; lra).
    cbn [Fadd]. rewrite Qeq_bool_false by lra. cbn [Fsub Fopp Fadd].
    right. eexists; split; [reflexivity|].
    assert (H1 : 0 <= 100 / (1 + g / l)) by (apply Qle_shift_div_l; lra).
    assert (H2 : 100 / (1 + g / l) <= 100) by (apply Qle_shift_div_r; lra).
    lra.
Qed.

(** X4.  Every row of the RSI is NaN or lies between 0 and 100, and the rows
    0 to 12 are NaN: the first RSI comes with the 14th bar. *)
Theorem rsi_range (sqrtQ : Q -> Q) (w20 w50 : nat) (bars : list Bar) :
  let df := get_data sqrtQ w20 w50 bars in
  (forall i x, nth_error (RSI df) i = Some x ->
     x = NaN \/ exists r, x = Fin r /\ 0 <= r <= 100)
  /\ (forall i, (i < 13)%nat -> (i < length bars)%nat ->
        nth_error (RSI df) i = Some NaN).
Proof.
  cbn [get_data RSI]. rewrite close_of_fin.
  assert (Hlen : length (map snd bars) = length bars) by apply length_map.
  split.
  - intros i x Hx.
    assert (Hi : (i < length (map snd bars))%nat).
    { rewrite <- (length_map Fin), <- length_rsi_of.
      apply nth_error_Some. rewrite Hx. discriminate. }
    rewrite rsi_of_row in Hx by exact Hi. injection Hx as <-.
    destruct (i + 1 <? 14)%nat; [left; reflexivity|].
    apply rsi_of_rs_range; apply window_average_nonneg;
      try lia; [apply gains_nonneg | apply losses_nonneg].
  - intros i Hi Hn. rewrite rsi_of_row by lia.
    replace (i + 1 <? 14)%nat with true by (symmetry; apply Nat.ltb_lt; lia).
    reflexivity.
Qed.

Lemma sum_from_ge (qs : list Q) (a : Q) :
  Forall (fun q => 0 <= q) qs -> a <= fold_left Qplus qs a.
Proof.
  revert a. induction qs as [|q qs IH]; intros a H; simpl; [lra|].
  inversion H; subst. specialize (IH (a + q) ltac:(assumption)). lra.
Qed.

Lemma sum_from_pos (qs : list Q) (a q : Q) :
  0 <= a -> Forall (fun q => 0 <= q) qs -> In q qs -> 0 < q ->
  0 < fold_left Qplus qs a.
Proof.
  revert a. induction qs as [|x qs IH]; intros a Ha H Hin Hq; [contradiction|].
  inversion H; subst. cbn [fold_left].
  destruct Hin as [-> | Hin].
  - pose proof (sum_from_ge qs (a + q) ltac:(assumption)). lra.
  - apply IH; auto. lra.
Qed.

(** The average of a full window of non-negative values is positive as soon
    as the value of its last row is. *)
Lemma window_average_pos (w i : nat) (qs : list Q) (q : Q) :
  (0 < w)%nat -> (w <= i + 1)%nat ->
  Forall (fun q => 0 <= q) qs ->
  nth_error qs i = Some q -> 0 < q ->
  0 < window_average w i qs.
Proof.
  intros Hw Hi Hqs Hn Hq. unfold window_average.
  apply Qlt_shift_div_l; [apply QofNat_pos; exact Hw|].
  assert (0 < sum (firstn w (skipn (i + 1 - w) qs))).
  { apply (sum_from_pos _ 0 q); [lra | | | exact Hq].
    - apply Forall_firstn, Forall_skipn, Hqs.
    - apply (nth_error_In _ (w - 1)).
      rewrite nth_error_firstn.
      replace (w - 1 <? w)%nat with true by (symmetry; apply Nat.ltb_lt; lia).
      rewrite nth_error_skipn.
      replace (i + 1 - w + (w - 1))%nat with i by lia. exact Hn. }
  lra.
Qed.

Lemma window_average_zero (w i : nat) (qs : list Q) :
  (0 < w)%nat -> Forall (fun q => q == 0) qs -> window_average w i qs == 0.
Proof.
  intros Hw Hqs. unfold window_average, sum.
  rewrite (sum_from_equal _ 0 0)
    by (apply Forall_firstn, Forall_skipn, Hqs).
  assert (0 < QofNat w) by (apply QofNat_pos; exact Hw).
  field. lra.
Qed.

Lemma nth_error_positive_tail (l : list Q) (i : nat) :
  (1 <= i)%nat -> (i < S (length l))%nat ->
  Forall (fun q => 0 < q) l ->
  forall h, exists q, nth_error (h :: l) i = Some q /\ 0 < q.
Proof.
  intros H1 H2 Hl h. destruct i as [|i]; [lia|]. cbn [nth_error].
  destruct (nth_error l i) as [q|] eqn:E.
  - exists q. split; [reflexivity|]. exact (nth_error_Forall _ _ _ _ Hl E).
  - apply nth_error_None in E. lia.
Qed.

Lemma rsi_of_rs_zero_loss (g l : Q) :
  0 < g -> l == 0 -> rsi_of_rs (Fin g / Fin l)%F =f= Fin 100.
Proof.
  intros Hg Hl. cbn [Fdiv].
  replace (Qeq_bool l 0) with true by (symmetry; apply Qeq_bool_iff; exact Hl).
  unfold Finf_scale. rewrite (proj1 (Qgt_alt g 0) Hg).
  apply rsi_of_rs_infinite.
Qed.

Lemma rsi_of_rs_zero_gain (g l : Q) :
  g == 0 -> 0 < l -> rsi_of_rs (Fin g / Fin l)%F =f= Fin 0.
Proof.
  intros Hg Hl. rewrite Fdiv_fin by lra. unfold rsi_of_rs.
  assert (E : 1 + g / l == 1) by (rewrite Hg; field; lra).
  cbn [Fadd]. rewrite Fdiv_fin by (rewrite E; lra).
  cbn [Fsub Fopp Fadd Feq]. rewrite E. reflexivity.
Qed.

(** X5.  On every row from the 14th on, the RSI of closes that rise from
    every bar to the next is 100, and the RSI of closes that fall from every
    bar to the next is 0. *)
Theorem rsi_monotone_closes (sqrtQ : Q -> Q) (w20 w50 : nat)
    (bars : list Bar) (i : nat) :
  (13 <= i < length bars)%nat ->
  let df := get_data sqrtQ w20 w50 bars in
  (rising (map snd bars) ->
   exists r, nth_error (RSI df) i = Some r /\ r =f= Fin 100)
  /\ (falling (map snd bars) ->
      exists r, nth_error (RSI df) i = Some r /\ r =f= Fin 0).
Proof.
  intros Hi. cbn [get_data RSI]. rewrite close_of_fin.
  assert (Hlen : length (map snd bars) = length bars) by apply length_map.
  rewrite rsi_of_row by lia.
  replace (i + 1 <? 14)%nat with false by (symmetry; apply Nat.ltb_ge; lia).
  destruct (map snd bars) as [|c0 cs] eqn:Ecl; [simpl in Hlen; lia|].
  assert (Hds : length (differences c0 cs) = length cs)
    by apply length_differences.
  simpl in Hlen.
  split; intros Hm; cbn [rising falling] in Hm;
    eexists; (split; [reflexivity|]).
  - apply rsi_of_rs_zero_loss.
    + destruct (nth_error_positive_tail (map gain_part (differences c0 cs)) i)
        with (h := 0) as [q [Hq Hpos]]; try (rewrite ?length_map; lia).
      { rewrite Forall_forall in *. intros g Hg.
        apply in_map_iff in Hg as [d [<- Hd]]. specialize (Hm d Hd).
        unfold gain_part. rewrite Qle_bool_false by exact Hm. exact Hm. }
      apply (window_average_pos 14 i _ q); try lia; auto.
      apply (gains_nonneg (c0 :: cs)).
    + apply window_average_zero; [lia|].
      cbn [losses]. constructor; [reflexivity|].
      rewrite Forall_forall in *. intros l Hl.
      apply in_map_iff in Hl as [d [<- Hd]]. specialize (Hm d Hd).
      unfold loss_part. rewrite Qle_bool_true by lra. reflexivity.
  - apply rsi_of_rs_zero_gain.
    + apply window_average_zero; [lia|].
      cbn [gains]. constructor; [reflexivity|].
      rewrite Forall_forall in *. intros g Hg.
      apply in_map_iff in Hg as [d [<- Hd]]. specialize (Hm d Hd).
      unfold gain_part. rewrite Qle_bool_true by lra. reflexivity.
    + destruct (nth_error_positive_tail (map loss_part (differences c0 cs)) i)
        with (h := - 0) as [q [Hq Hpos]]; try (rewrite ?length_map; lia).
      { rewrite Forall_forall in *. intros l Hl.
        apply in_map_iff in Hl as [d [<- Hd]]. specialize (Hm d Hd).
        unfold loss_part. rewrite Qle_bool_false by exact Hm.
        cbn [negb]. lra. }
      apply (window_average_pos 14 i _ q); try lia; auto.
      apply (losses_nonneg (c0 :: cs)).
Qed.

(** ** The maximal drawdown *)

(** A row of the drawdown over missing or positive growth values: NaN where
    the growth is NaN, and else a value above -1 and at most 0. *)
Lemma drawdown_of_row (xs : Series) (i : nat) :
  Forall nan_or_positive xs ->
  match nth_error xs i with
  | None => nth_error (drawdown_of xs) i = None
  | Some NaN => nth_error (drawdown_of xs) i = Some NaN
  | Some (Fin c) =>
      exists d, nth_error (drawdown_of xs) i = Some (Fin d) /\ - (1) < d <= 0
  | Some _ => True
  end.
Proof.
  intros Hxs. unfold drawdown_of, cummax.
  rewrite !nth_error_zipWith.
  pose proof (cummax_from_nth xs NInf i Hxs (or_introl eq_refl)) as Hm.
  destruct (nth_error xs i) as [x|] eqn:Ei; [|reflexivity].
  destruct (nth_error_Forall _ _ _ _ Hxs Ei) as [-> | [q [-> Hq]]].
  - rewrite Hm. reflexivity.
  - destruct Hm as [m [-> [Hqm _]]].
    cbn [Fsub Fopp Fadd]. rewrite Fdiv_fin by lra.
    eexists; split; [reflexivity|]. split.
    + apply Qlt_shift_div_l; lra.
    + apply Qle_shift_div_r; lra.
Qed.

(** The least of finite values, taken from the left as [min] takes it. *)
Lemma fold_Fmin_fin (qs : list Q) (a : Q) :
  exists m,
    fold_left Fmin (map Fin qs) (Fin a) = Fin m
    /\ (m = a \/ In m qs) /\ m <= a /\ (forall q, In q qs -> m <= q).
Proof.
  revert a. induction qs as [|q qs IH]; intros a.
  - exists a. cbn. repeat split; auto; try lra. intros q [].
  - cbn [map fold_left]. unfold Fmin at 2. cbn [Fltb].
    destruct (Qle_bool a q) eqn:E; cbn [negb].
    + apply Qle_bool_iff in E.
      destruct (IH a) as [m [Hm [Hin [Hle Hall]]]].
      exists m. split; [exact Hm|]. split; [|split].
      * destruct Hin; [left | right; right]; assumption.
      * exact Hle.
      * intros x [<- | Hx]; [lra | auto].
    + assert (Hlt : q < a).
      { destruct (Qlt_le_dec q a) as [L | L]; [exact L|].
        apply Qle_bool_iff in L. congruence. }
      destruct (IH q) as [m [Hm [Hin [Hle Hall]]]].
      exists m. split; [exact Hm|]. split; [|split].
      * right. destruct Hin as [-> | Hin]; [left; reflexivity | right; exact Hin].
      * lra.
      * intros x [<- | Hx]; [lra | auto].
Qed.

Lemma filter_notna_finite (xs : Series) :
  Forall (fun x => x = NaN \/ exists d, x = Fin d) xs ->
  exists qs,
    filter notna xs = map Fin qs /\ (forall d, In d qs <-> In (Fin d) xs).
Proof.
  induction xs as [|x xs IH]; intros H.
  - exists []. split; [reflexivity|]. intros d; split; intros [].
  - inversion H as [|? ? Hx Hxs]; subst.
    destruct (IH Hxs) as [qs [Hf Hin]].
    destruct Hx as [-> | [d ->]].
    + exists qs. split; [exact Hf|]. intros d. rewrite Hin. split.
      * intros Hd; right; exact Hd.
      * intros [Hd | Hd]; [discriminate | exact Hd].
    + exists (d :: qs). split; [cbn; rewrite Hf; reflexivity|].
      intros d'. cbn [In]. rewrite Hin. split.
      * intros [-> | Hd]; [left; reflexivity | right; exact Hd].
      * intros [Hd | Hd]; [left; congruence | right; exact Hd].
Qed.

(** [min] over a column of NaN and finite values that holds a finite one:
    a finite value of the column, below all the others. *)
Lemma Series_min_finite (xs : Series) (d0 : Q) :
  Forall (fun x => x = NaN \/ exists d, x = Fin d) xs ->
  In (Fin d0) xs ->
  exists m,
    Series_min xs = Fin m /\ In (Fin m) xs
    /\ (forall d, In (Fin d) xs -> m <= d).
Proof.
  intros Hxs H0. destruct (filter_notna_finite xs Hxs) as [qs [Hf Hin]].
  unfold Series_min. rewrite Hf.
  destruct qs as [|a qs].
  - apply Hin in H0. destruct H0.
  - cbn [map]. destruct (fold_Fmin_fin qs a) as [m [Hm [Hor [Hle Hall]]]].
    exists m. split; [exact Hm|]. split.
    + apply Hin. destruct Hor as [-> | Hor]; [left; reflexivity | right; exact Hor].
    + intros d Hd. apply Hin in Hd. destruct Hd as [<- | Hd]; [exact Hle | auto].
Qed.

(** X6.  For positive closes the maximal drawdown shown for a stock is NaN
    when the history has fewer than two bars, and else it is a row of the
    drawdown column, at most every other row, at most 0 and above -1: a loss
    of less than the whole value. *)
Theorem max_drawdown_bounds (sqrtQ : Q -> Q) (w20 w50 : nat)
    (bars : list Bar) :
  positive_closes bars ->
  let df := get_data sqrtQ w20 w50 bars in
  ((length bars <= 1)%nat -> max_drawdown df = NaN)
  /\ ((2 <= length bars)%nat ->
      exists m,
        max_drawdown df = Fin m
        /\ - (1) < m <= 0
        /\ (exists i, nth_error (Drawdown df) i = Some (Fin m))
        /\ (forall i d, nth_error (Drawdown df) i = Some (Fin d) -> m <= d)).
Proof.
  intros Hpos df. split.
  - intros Hlen. destruct bars as [|b [|b' bars]]; try (simpl in Hlen; lia);
      reflexivity.
  - intros Hlen.
    pose proof (cumulative_nan_or_positive sqrtQ w20 w50 bars Hpos) as Hok.
    fold df in Hok.
    assert (Hdd : Drawdown df = drawdown_of (Cumulative df)) by reflexivity.
    assert (Hrows : Forall (fun x => x = NaN
                              \/ exists d, x = Fin d /\ - (1) < d <= 0)
                      (Drawdown df)).
    { rewrite Forall_forall. intros x Hx.
      apply In_nth_error in Hx as [i Hi]. rewrite Hdd in Hi.
      pose proof (drawdown_of_row (Cumulative df) i Hok) as Hr.
      destruct (nth_error (Cumulative df) i) as [c|] eqn:Ec;
        [|rewrite Hr in Hi; discriminate].
      destruct (nth_error_Forall _ _ _ _ Hok Ec) as [-> | [q [-> Hq]]].
      - rewrite Hr in Hi. injection Hi as <-. left; reflexivity.
      - destruct Hr as [d [Hd Hb]]. rewrite Hd in Hi. injection Hi as <-.
        right. exists d. auto. }
    assert (Hone : exists d, nth_error (Drawdown df) 1 = Some (Fin d)).
    { assert (Hne : bars <> []) by (intros ->; simpl in Hlen; lia).
      destruct (bars_closes bars Hne Hpos) as [c0 [cs [Hcl Hall]]].
      inversion Hall as [|? ? Hc0 Hcs]; subst.
      destruct cs as [|c1 cs].
      { pose proof (length_map snd bars) as E. rewrite Hcl in E.
        simpl in E. lia. }
      destruct (cumprod_telescopes (c1 :: cs) c0 1 0 c1 Hc0 Hcs eq_refl)
        as [v [Hv _]].
      assert (Ec : nth_error (Cumulative df) 1 = Some (Fin v)).
      { unfold df. cbn [get_data Cumulative].
        rewrite close_of_fin, Hcl, (returns_of_positive c0 (c1 :: cs) Hall).
        rewrite cumulative_of_positive. exact Hv. }
      pose proof (drawdown_of_row (Cumulative df) 1 Hok) as Hr.
      rewrite Ec in Hr. destruct Hr as [d [Hd _]]. exists d. exact Hd. }
    destruct Hone as [d1 Hd1].
    destruct (Series_min_finite (Drawdown df) d1) as [m [Hm [Hin Hall]]].
    + eapply Forall_impl; [|exact Hrows].
      intros x [-> | [d [-> _]]]; [left | right; exists d]; reflexivity.
    + eapply nth_error_In. exact Hd1.
    + exists m. split; [exact Hm|]. split; [|split].
      * rewrite Forall_forall in Hrows.
        destruct (Hrows _ Hin) as [E | [d [E Hb]]]; [discriminate|].
        injection E as ->. exact Hb.
      * apply In_nth_error in Hin. exact Hin.
      * intros i d Hd. apply Hall. eapply nth_error_In. exact Hd.
Qed.

(** ** The moving averages and the closes *)

Lemma sum_from_bounds (qs : list Q) (lo hi a : Q) :
  Forall (fun q => lo <= q <= hi) qs ->
  a + QofNat (length qs) * lo <= fold_left Qplus qs a
  /\ fold_left Qplus qs a <= a + QofNat (length qs) * hi.
Proof.
  revert a. induction qs as [|q qs IH]; intros a H.
  - cbn [fold_left length]. change (QofNat 0) with 0. split; lra.
  - inversion H as [|? ? Hq Hqs]; subst.
    cbn [fold_left length]. destruct (IH (a + q) Hqs) as [H1 H2].
    rewrite QofNat_S. split; lra.
Qed.

(** X7.  A moving average never leaves the range of the closes: with every
    close between [lo] and [hi], every defined row of [MA20] and of [MA50]
    lies between [lo] and [hi]. *)
Theorem moving_average_within_closes (sqrtQ : Q -> Q) (w20 w50 : nat)
    (bars : list Bar) (lo hi : Q) :
  (0 < w20)%nat -> (0 < w50)%nat ->
  Forall (fun b => lo <= snd b <= hi) bars ->
  let df := get_data sqrtQ w20 w50 bars in
  forall_rows_between lo hi (MA20 df) /\ forall_rows_between lo hi (MA50 df).
Proof.
  intros H20 H50 Hb. cbn [get_data MA20 MA50]. rewrite close_of_fin.
  assert (Hqs : Forall (fun q => lo <= q <= hi) (map snd bars)).
  { rewrite Forall_forall in *. intros q Hq.
    apply in_map_iff in Hq as [b [<- Hin]]. apply Hb. exact Hin. }
  assert (Hgen : forall w i m, (0 < w)%nat ->
            nth_error (rolling_mean w (map Fin (map snd bars))) i
            = Some (Fin m) -> lo <= m <= hi).
  { intros w i m Hw Hm.
    destruct (rolling_mean_defined w _ i m Hw Hm) as [Hi Hge].
    rewrite rolling_mean_fin_nth in Hm by assumption.
    replace (i + 1 <? w)%nat with false in Hm
      by (symmetry; apply Nat.ltb_ge; lia).
    injection Hm as <-.
    set (win := firstn w (skipn (i + 1 - w) (map snd bars))).
    assert (Hlen : length win = w).
    { unfold win. rewrite length_firstn, length_skipn. lia. }
    assert (Hwin : Forall (fun q => lo <= q <= hi) win)
      by (apply Forall_firstn, Forall_skipn, Hqs).
    destruct (sum_from_bounds win lo hi 0 Hwin) as [H1 H2].
    rewrite Hlen in H1, H2. fold (sum win) in H1, H2.
    assert (Hpos : 0 < QofNat w) by (apply QofNat_pos; exact Hw).
    split.
    - apply Qle_shift_div_l; [exact Hpos | lra].
    - apply Qle_shift_div_r; [exact Hpos | lra]. }
  split; intros i m Hm;
    [exact (Hgen w20 i m H20 Hm) | exact (Hgen w50 i m H50 Hm)].
Qed.

(** ** The weights of the sidebar and the portfolio view *)

Lemma combine_nonempty {A B : Type} (l : list A) (l' : list B) :
  l <> [] -> length l' = length l -> combine l l' <> [].
Proof.
  destruct l, l'; simpl; intros; try congruence; discriminate.
Qed.

Lemma portfolio_section_enabled (sqrtQ : Q -> Q)
    (float_sum : list float -> float) (w20 w50 : nat)
    (portfolio_tickers : list (list Bar)) (weights : list float) :
  portfolio_tickers <> [] ->
  portfolio_section sqrtQ float_sum w20 w50 true portfolio_tickers weights
  = (sidebar_weights float_sum weights,
     if (length weights =? length portfolio_tickers)%nat
     then match portfolio_metrics_F sqrtQ w20 w50
                  (combine portfolio_tickers (map Fvalue weights)) with
          | Some m => Shown m
          | None => Raised
          end
     else NotShown).
Proof.
  intros Hne. unfold portfolio_section.
  destruct portfolio_tickers; [congruence | reflexivity].
Qed.

(** X8.  What the portfolio part of the script does, case by case.  The
    view shows the metrics [m] exactly when it is enabled, a ticker is
    selected, there is one weight per ticker and [m] is what the loop
    computes from the tickers and the weights; the script stops exactly when
    the view is enabled without a ticker; the sidebar shows its message
    exactly when the view is enabled, a ticker is selected and
    [abs(sum(weights) - 1) > 0.01] holds on doubles, whether or not the view
    is then shown. *)
Theorem portfolio_section_cases (sqrtQ : Q -> Q)
    (float_sum : list float -> float) (w20 w50 : nat)
    (enable_portfolio : bool) (portfolio_tickers : list (list Bar))
    (weights : list float) :
  let r := portfolio_section sqrtQ float_sum w20 w50 enable_portfolio
             portfolio_tickers weights in
  (forall m,
     snd r = Shown m
     <-> enable_portfolio = true /\ portfolio_tickers <> []
         /\ length weights = length portfolio_tickers
         /\ portfolio_metrics_F sqrtQ w20 w50
              (combine portfolio_tickers (map Fvalue weights)) = Some m)
  /\ (snd r = Raised <-> enable_portfolio = true /\ portfolio_tickers = [])
  /\ (fst r <> []
      <-> enable_portfolio = true /\ portfolio_tickers <> []
          /\ PrimFloat.ltb tolerance
               (PrimFloat.abs (PrimFloat.sub (float_sum weights) 1%float))
             = true).
Proof.
  destruct enable_portfolio.
  2:{ cbn [portfolio_section fst snd]. split; [|split].
      - intros m. split; [discriminate | intros [H _]; discriminate].
      - split; [discriminate | intros [H _]; discriminate].
      - split; [intros H; congruence | intros [H _]; discriminate]. }
  destruct portfolio_tickers as [|t ts] eqn:Et.
  { cbn [portfolio_section fst snd]. split; [|split].
    - intros m. split; [discriminate | intros [_ [H _]]; congruence].
    - split; auto.
    - split; [intros H; congruence | intros [_ [H _]]; congruence]. }
  rewrite <- Et. assert (Hne : portfolio_tickers <> []) by (rewrite Et; discriminate).
  rewrite portfolio_section_enabled by exact Hne.
  cbn [fst snd]. split; [|split].
  - intros m.
    destruct (length weights =? length portfolio_tickers)%nat eqn:El.
    + apply Nat.eqb_eq in El.
      destruct (portfolio_metrics_F_some sqrtQ w20 w50 portfolio_tickers
                  weights Hne El) as [m' Hm'].
      rewrite Hm'. split.
      * intros H. injection H as <-. auto.
      * intros [_ [_ [_ H]]]. congruence.
    + apply Nat.eqb_neq in El. split.
      * discriminate.
      * intros [_ [_ [H _]]]. contradiction.
  - split; [|intros [_ H]; contradiction].
    destruct (length weights =? length portfolio_tickers)%nat eqn:El;
      [|discriminate].
    apply Nat.eqb_eq in El.
    destruct (portfolio_metrics_F_some sqrtQ w20 w50 portfolio_tickers
                weights Hne El) as [m' Hm'].
    rewrite Hm'. discriminate.
  - unfold sidebar_weights, weights_mismatch.
    destruct (PrimFloat.ltb tolerance
                (PrimFloat.abs (PrimFloat.sub (float_sum weights) 1%float))).
    + split; [auto|]. intros _. discriminate.
    + split; [intros H; congruence|]. intros [_ [_ H]]. discriminate.
Qed.

(** The default weights of one to seven tickers under both summations: the
    sum is within [2^-52] of 1 and the check of line 68 is false. *)
Lemma default_weights_sum (n : nat) (float_sum : list float -> float) :
  (1 <= n <= 7)%nat ->
  float_sum = sum_left \/ float_sum = sum_compensated ->
  let weights := repeat (PrimFloat.div 1%float (float_of_nat n)) n in
  (exists q,
     Fvalue (float_sum weights) = Fin q
     /\ Qabs (q - 1) <= 1 # 4503599627370496)
  /\ weights_mismatch float_sum weights = false.
Proof.
  intros Hn Hsum.
  assert (Hcases : (n = 1 \/ n = 2 \/ n = 3 \/ n = 4 \/ n = 5 \/ n = 6
                    \/ n = 7)%nat) by lia.
  destruct Hsum as [-> | ->];
    destruct Hcases as [-> | [-> | [-> | [-> | [-> | [-> | ->]]]]]];
    (split;
     [eexists; split; [vm_compute; reflexivity | vm_compute; discriminate]
     | vm_compute; reflexivity]).
Qed.

(** X9.  For one to seven tickers (the table offers seven) and under both
    summations: the default weights are one weight per ticker, the double
    [sum] returns for them is within [2^-52] of 1, and taken as the weights
    they leave the sidebar without message and the view shows the metrics
    the loop computes from them.  Without a ticker there are no default
    weights: the division raises. *)
Theorem default_weights_accepted (sqrtQ : Q -> Q)
    (float_sum : list float -> float) (w20 w50 : nat)
    (portfolio_tickers : list (list Bar)) :
  float_sum = sum_left \/ float_sum = sum_compensated ->
  portfolio_tickers <> [] ->
  (length portfolio_tickers <= 7)%nat ->
  exists weights,
    default_weights portfolio_tickers = Some weights
    /\ length weights = length portfolio_tickers
    /\ (exists q,
          Fvalue (float_sum weights) = Fin q
          /\ Qabs (q - 1) <= 1 # 4503599627370496)
    /\ exists m,
         portfolio_metrics_F sqrtQ w20 w50
           (combine portfolio_tickers (map Fvalue weights)) = Some m
         /\ portfolio_section sqrtQ float_sum w20 w50 true
              portfolio_tickers weights
            = ([], Shown m).
Proof.
  intros Hsum Hne H7.
  set (n := length portfolio_tickers).
  assert (Hn : (1 <= n <= 7)%nat).
  { unfold n. destruct portfolio_tickers; [congruence | simpl in *; lia]. }
  set (weights := repeat (PrimFloat.div 1%float (float_of_nat n)) n).
  assert (Hlen : length weights = n) by apply repeat_length.
  destruct (default_weights_sum n float_sum Hn Hsum) as [Hq Hm].
  fold weights in Hq, Hm.
  exists weights. split; [|split; [|split]].
  - unfold default_weights. destruct portfolio_tickers; [congruence|].
    reflexivity.
  - exact Hlen.
  - exact Hq.
  - destruct (portfolio_metrics_F_some sqrtQ w20 w50 portfolio_tickers
                weights Hne Hlen) as [m Hmet].
    exists m. split; [exact Hmet|].
    rewrite portfolio_section_enabled by exact Hne.
    unfold sidebar_weights. rewrite Hm, Hmet.
    replace (Nat.eqb (length weights) (length portfolio_tickers))
      with true by (symmetry; apply Nat.eqb_eq; exact Hlen).
    reflexivity.
Qed.

(** ** The portfolio of weights between 0 and 1 *)

Lemma simple_returns_above (prev : Q) (cs : list Q) :
  0 < prev -> Forall (fun c => 0 < c) cs ->
  Forall (fun r => - (1) < r) (simple_returns prev cs).
Proof.
  revert prev. induction cs as [|c cs IH]; intros prev Hp Hcs.
  - constructor.
  - inversion Hcs as [|? ? Hc Hcs']; subst. cbn [simple_returns].
    constructor; [|apply IH; assumption].
    assert (0 < c / prev) by (apply Qlt_shift_div_l; lra). lra.
Qed.

(** The factor [1 + r * w] of a return above -1 and a weight between 0 and 1
    is positive. *)
Lemma factor_positive (r w : Q) :
  - (1) < r -> 0 <= w <= 1 -> 0 < 1 + r * w.
Proof.
  intros Hr [H0 H1].
  destruct (Qlt_le_dec r 0) as [Hneg | Hpos].
  - assert (0 <= (1 - w) * (- r)) by (apply Qmult_le_0_compat; lra).
    assert (E : 1 + r * w == (1 + r) + (1 - w) * (- r)) by ring.
    rewrite E. lra.
  - assert (0 <= r * w) by (apply Qmult_le_0_compat; lra). lra.
Qed.

Lemma cumprod_from_positive (xs : Series) (a : Q) :
  0 < a -> Forall nan_or_positive xs ->
  Forall nan_or_positive (cumprod_from (Fin a) xs).
Proof.
  revert a. induction xs as [|x xs IH]; intros a Ha H.
  - constructor.
  - inversion H as [|? ? Hx Hxs]; subst. cbn [cumprod_from].
    destruct Hx as [-> | [q [-> Hq]]]; cbn [isnan].
    + constructor; [left; reflexivity | apply IH; assumption].
    + cbn [Fmul].
      assert (0 < a * q) by (apply Qmult_lt_0_compat; assumption).
      constructor; [right; eauto | apply IH; assumption].
Qed.

Lemma Fmul_nan_or_positive (x y : F) :
  nan_or_positive x -> nan_or_positive y -> nan_or_positive (x * y)%F.
Proof.
  intros [-> | [a [-> Ha]]] [-> | [b [-> Hb]]]; cbn;
    try (left; reflexivity).
  right. eexists; split; [reflexivity|]. apply Qmult_lt_0_compat; assumption.
Qed.

Lemma zipWith_Fmul_positive (xs ys : Series) :
  Forall nan_or_positive xs -> Forall nan_or_positive ys ->
  Forall nan_or_positive (zipWith Fmul xs ys).
Proof.
  intros Hx. revert ys. unfold zipWith.
  induction Hx as [|x xs Hx Hxs IH]; intros ys Hy; [constructor|].
  destruct Hy as [|y ys Hy Hys]; [constructor|].
  cbn [combine map fst snd].
  constructor; [apply Fmul_nan_or_positive; assumption | apply IH; exact Hys].
Qed.

Lemma lookup_nan_or_member (d : Z) (idx : list Z) (vals : Series) :
  lookup d idx vals = NaN \/ In (lookup d idx vals) vals.
Proof.
  unfold lookup.
  destruct (find (fun p => Z.eqb (fst p) d) (combine idx vals)) as [[k v]|] eqn:E;
    [|left; reflexivity].
  right. apply find_some in E as [Hin _].
  apply in_combine_r in Hin. exact Hin.
Qed.

Lemma reindex_nan_or_positive (idx idx' : list Z) (vals : Series) :
  Forall nan_or_positive vals ->
  Forall nan_or_positive (reindex idx idx' vals).
Proof.
  intros H. unfold reindex. rewrite Forall_forall. intros x Hx.
  apply in_map_iff in Hx as [d [<- _]].
  destruct (lookup_nan_or_member d idx' vals) as [-> | Hin].
  - left; reflexivity.
  - rewrite Forall_forall in H. apply H. exact Hin.
Qed.

Lemma Series_min_nan_or_member (xs : Series) :
  Forall (fun x => x = NaN \/ exists d, x = Fin d) xs ->
  Series_min xs = NaN \/ exists m, Series_min xs = Fin m /\ In (Fin m) xs.
Proof.
  intros Hxs. destruct (filter_notna_finite xs Hxs) as [qs [Hf Hin]].
  unfold Series_min. rewrite Hf. destruct qs as [|a qs]; [left; reflexivity|].
  right. cbn [map]. destruct (fold_Fmin_fin qs a) as [m [Hm [Hor _]]].
  exists m. split; [exact Hm|]. apply Hin.
  destruct Hor as [-> | Hor]; [left; reflexivity | right; exact Hor].
Qed.

Section LongOnly.

Variable sqrtQ : Q -> Q.
Variables w20 w50 : nat.

(** The factors [1 + Weighted_Return] of positive closes under a weight
    between 0 and 1 are missing or positive. *)
Lemma factors_nan_or_positive (bars : list Bar) (w : Q) :
  positive_closes bars -> 0 <= w <= 1 ->
  Forall nan_or_positive
    (map (fun r => (Fin 1 + r)%F)
       (map (fun r => (r * Fin w)%F)
          (Returns (get_data sqrtQ w20 w50 bars)))).
Proof.
  intros Hpos Hw. cbn [get_data Returns].
  destruct bars as [|b bars'] eqn:Eb; [constructor|]. rewrite <- Eb in *.
  assert (Hne : bars <> []) by (rewrite Eb; discriminate).
  destruct (bars_closes bars Hne Hpos) as [c0 [cs [Hcl Hall]]].
  rewrite close_of_fin, Hcl, (returns_of_positive c0 cs Hall).
  inversion Hall as [|? ? Hc0 Hcs]; subst.
  cbn [map Fmul Fadd]. constructor; [left; reflexivity|].
  rewrite !map_map. rewrite Forall_forall. intros x Hx.
  apply in_map_iff in Hx as [r [<- Hr]].
  pose proof (simple_returns_above c0 cs Hc0 Hcs) as Habove.
  rewrite Forall_forall in Habove. specialize (Habove r Hr).
  right. cbn [Fmul Fadd]. eexists; split; [reflexivity|].
  apply factor_positive; assumption.
Qed.

Lemma portfolio_step_positive (st : option PortfolioFrame)
    (item : list Bar * Q) :
  positive_closes (fst item) -> 0 <= snd item <= 1 ->
  (forall p, st = Some p -> Forall nan_or_positive (p_Cumulative p)) ->
  exists p',
    portfolio_step sqrtQ w20 w50 st item = Some p'
    /\ Forall nan_or_positive (p_Cumulative p').
Proof.
  intros Hpos Hw Hst.
  pose proof (factors_nan_or_positive (fst item) (snd item) Hpos Hw) as Hf.
  assert (Hfirst : Forall nan_or_positive
            (cumprod
               (map (fun r => (Fin 1 + r)%F)
                  (map (fun r => (r * Fin (snd item))%F)
                     (Returns (get_data sqrtQ w20 w50 (fst item))))))).
  { unfold cumprod. apply cumprod_from_positive; [lra | exact Hf]. }
  unfold portfolio_step. destruct st as [p|].
  - destruct (frame_empty (Some p)).
    + eexists; split; [reflexivity | exact Hfirst].
    + eexists; split; [reflexivity|]. cbn [p_Cumulative].
      apply zipWith_Fmul_positive; [apply Hst; reflexivity|].
      apply reindex_nan_or_positive. exact Hf.
  - eexists; split; [reflexivity | exact Hfirst].
Qed.

Lemma portfolio_loop_positive (items : list (list Bar * Q))
    (st : option PortfolioFrame) :
  Forall (fun item => positive_closes (fst item) /\ 0 <= snd item <= 1) items ->
  (forall p, st = Some p -> Forall nan_or_positive (p_Cumulative p)) ->
  forall p,
    fold_left (portfolio_step sqrtQ w20 w50) items st = Some p ->
    Forall nan_or_positive (p_Cumulative p).
Proof.
  revert st. induction items as [|item items IH]; intros st Hall Hst p Hp.
  - cbn [fold_left] in Hp. apply Hst. exact Hp.
  - inversion Hall as [|? ? [Hpos Hw] Hrest]; subst.
    cbn [fold_left] in Hp.
    destruct (portfolio_step_positive st item Hpos Hw Hst) as [p' [E Hp']].
    rewrite E in Hp. apply (IH (Some p') Hrest); [|exact Hp].
    intros q Hq. injection Hq as <-. exact Hp'.
Qed.

(** X10.  For tickers of positive closes and weights between 0 and 1,
    whatever their dates: every row of the composite cumulative column is
    NaN or positive, every row of the composite drawdown is NaN or above -1
    and at most 0, and so is the maximal drawdown the view shows. *)
Theorem long_only_portfolio (items : list (list Bar * Q))
    (m : PortfolioMetrics) :
  Forall (fun item => positive_closes (fst item) /\ 0 <= snd item <= 1) items ->
  portfolio_metrics sqrtQ w20 w50 items = Some m ->
  Forall nan_or_positive (pm_Cumulative m)
  /\ Forall (fun x => x = NaN \/ exists d, x = Fin d /\ - (1) < d <= 0)
       (pm_drawdown m)
  /\ (portfolio_max_drawdown m = NaN
      \/ exists d, portfolio_max_drawdown m = Fin d /\ - (1) < d <= 0).
Proof.
  intros Hall Hm. unfold portfolio_metrics in Hm.
  destruct (portfolio_data sqrtQ w20 w50 items) as [p|] eqn:Ep; [|discriminate].
  injection Hm as <-. unfold portfolio_max_drawdown.
  cbn [pm_Cumulative pm_drawdown].
  change (zipWith Fdiv (zipWith Fsub (p_Cumulative p) (cummax (p_Cumulative p)))
            (cummax (p_Cumulative p)))
    with (drawdown_of (p_Cumulative p)).
  assert (Hok : Forall nan_or_positive (p_Cumulative p)).
  { apply (portfolio_loop_positive items None Hall); [|exact Ep].
    intros q Hq. discriminate. }
  assert (Hrows : Forall (fun x => x = NaN
                            \/ exists d, x = Fin d /\ - (1) < d <= 0)
                    (drawdown_of (p_Cumulative p))).
  { rewrite Forall_forall. intros x Hx.
    apply In_nth_error in Hx as [i Hi].
    pose proof (drawdown_of_row (p_Cumulative p) i Hok) as Hr.
    destruct (nth_error (p_Cumulative p) i) as [c|] eqn:Ec;
      [|rewrite Hr in Hi; discriminate].
    destruct (nth_error_Forall _ _ _ _ Hok Ec) as [-> | [q [-> Hq]]].
    - rewrite Hr in Hi. injection Hi as <-. left; reflexivity.
    - destruct Hr as [d [Hd Hb]]. rewrite Hd in Hi. injection Hi as <-.
      right. exists d. auto. }
  split; [exact Hok|]. split; [exact Hrows|].
  destruct (Series_min_nan_or_member (drawdown_of (p_Cumulative p)))
    as [E | [d [E Hin]]].
  - eapply Forall_impl; [|exact Hrows].
    intros x [-> | [d [-> _]]]; [left | right; exists d]; reflexivity.
  - left. exact E.
  - right. exists d. split; [exact E|].
    rewrite Forall_forall in Hrows.
    destruct (Hrows _ Hin) as [E' | [d' [E' Hb]]]; [discriminate|].
    injection E' as ->. exact Hb.
Qed.

End LongOnly.

(** ** The stock table *)

Lemma stock_option_entry (name ticker : string) :
  stock_option name = Some ticker -> In (name, ticker) stock_options.
Proof.
  unfold stock_option.
  destruct (find (fun p => String.eqb (fst p) name) stock_options)
    as [[k t]|] eqn:E; [|discriminate].
  apply find_some in E as [Hin Heq]. cbn [fst] in Heq.
  apply String.eqb_eq in Heq. subst k.
  intros H. injection H as <-. exact Hin.
Qed.

Lemma stock_option_of_key (name : string) :
  In name (map fst stock_options) -> exists ticker, stock_option name = Some ticker.
Proof.
  cbn [stock_options map fst In].
  intros H. repeat (destruct H as [<- | H]; [eexists; reflexivity|]).
  contradiction.
Qed.

(** No two names of the table stand for one ticker. *)
Lemma stock_options_injective (n1 n2 ticker : string) :
  In (n1, ticker) stock_options -> In (n2, ticker) stock_options -> n1 = n2.
Proof.
  cbn [stock_options In]. intros H1 H2.
  destruct H1 as [H1|[H1|[H1|[H1|[H1|[H1|[H1|[]]]]]]]];
    destruct H2 as [H2|[H2|[H2|[H2|[H2|[H2|[H2|[]]]]]]]];
    congruence.
Qed.

Lemma tickers_of_member (names tickers : list string) (ticker : string) :
  tickers_of names = Some tickers -> In ticker tickers ->
  exists name, In name names /\ stock_option name = Some ticker.
Proof.
  revert tickers. induction names as [|n names IH]; intros tickers H Hin.
  - injection H as <-. destruct Hin.
  - cbn [tickers_of] in H.
    destruct (stock_option n) as [t|] eqn:En; [|discriminate].
    destruct (tickers_of names) as [ts|] eqn:Ets; [|discriminate].
    injection H as <-. destruct Hin as [<- | Hin].
    + exists n. split; [left; reflexivity | exact En].
    + destruct (IH ts eq_refl Hin) as [name [Hn Hs]].
      exists name. split; [right; exact Hn | exact Hs].
Qed.

(** X11.  The list of tickers is built without a missing key exactly when
    every selected name is a name of the table, as the multiselect ensures;
    it then holds, in the order of the names, the ticker the table gives
    each name: one ticker per name, and distinct names give distinct
    tickers. *)
Theorem tickers_of_selection (names : list string) :
  ((exists tickers, tickers_of names = Some tickers)
   <-> Forall (fun name => In name (map fst stock_options)) names)
  /\ (forall tickers,
        tickers_of names = Some tickers ->
        Forall2 (fun name ticker =>
                   stock_option name = Some ticker
                   /\ In (name, ticker) stock_options) names tickers
        /\ length tickers = length names
        /\ (NoDup names -> NoDup tickers)).
Proof.
  split; [split|].
  - intros [tickers H]. revert tickers H.
    induction names as [|n names IH]; intros tickers H; [constructor|].
    cbn [tickers_of] in H.
    destruct (stock_option n) as [t|] eqn:En; [|discriminate].
    destruct (tickers_of names) as [ts|] eqn:Ets; [|discriminate].
    constructor; [|apply (IH ts); reflexivity].
    apply stock_option_entry in En.
    apply (in_map fst) in En. exact En.
  - induction names as [|n names IH]; intros H; [eexists; reflexivity|].
    inversion H as [|? ? Hn Hrest]; subst.
    destruct (stock_option_of_key n Hn) as [t Ht].
    destruct (IH Hrest) as [ts Hts].
    exists (t :: ts). cbn [tickers_of]. rewrite Ht, Hts. reflexivity.
  - induction names as [|n names IH]; intros tickers H.
    + injection H as <-. split; [constructor|]. split; [reflexivity | constructor].
    + cbn [tickers_of] in H.
      destruct (stock_option n) as [t|] eqn:En; [|discriminate].
      destruct (tickers_of names) as [ts|] eqn:Ets; [|discriminate].
      injection H as <-. destruct (IH ts eq_refl) as [Hord [Hlen Hnd]].
      split; [|split].
      * constructor; [|exact Hord].
        split; [exact En | apply stock_option_entry; exact En].
      * simpl. congruence.
      * intros Hnames. inversion Hnames as [|? ? Hnotin Hnd']; subst.
        constructor; [|apply Hnd; exact Hnd'].
        intros Hin.
        destruct (tickers_of_member names ts t Ets Hin) as [n' [Hn' Hs]].
        apply stock_option_entry in En, Hs.
        assert (n' = n) by (eapply stock_options_injective; eauto).
        subst n'. contradiction.
Qed.

(** ** The rows where the RSI is missing *)

Lemma sum_from_zero_iff (qs : list Q) (a : Q) :
  0 <= a -> Forall (fun q => 0 <= q) qs ->
  (fold_left Qplus qs a == 0 <-> a == 0 /\ Forall (fun q => q == 0) qs).
Proof.
  revert a. induction qs as [|q qs IH]; intros a Ha H.
  - cbn [fold_left]. split; [intros E; split; [exact E | constructor]|].
    intros [E _]; exact E.
  - inversion H as [|? ? Hq Hqs]; subst. cbn [fold_left].
    rewrite (IH (a + q)) by (auto; lra). split.
    + intros [E Hz]. split; [lra|]. constructor; [lra | exact Hz].
    + intros [E Hz]. inversion Hz; subst. split; [lra | assumption].
Qed.

Lemma window_average_zero_iff (w i : nat) (qs : list Q) :
  (0 < w)%nat -> Forall (fun q => 0 <= q) qs ->
  (window_average w i qs == 0
   <-> Forall (fun q => q == 0) (firstn w (skipn (i + 1 - w) qs))).
Proof.
  intros Hw Hqs. unfold window_average, sum.
  assert (Hpos : 0 < QofNat w) by (apply QofNat_pos; exact Hw).
  set (win := firstn w (skipn (i + 1 - w) qs)).
  assert (Hwin : Forall (fun q => 0 <= q) win)
    by (apply Forall_firstn, Forall_skipn, Hqs).
  pose proof (sum_from_zero_iff win 0 ltac:(lra) Hwin) as Hiff.
  split.
  - intros E. apply Hiff.
    assert (E' : fold_left Qplus win 0
                 == fold_left Qplus win 0 / QofNat w * QofNat w)
      by (field; lra).
    rewrite E', E. ring.
  - intros Hz. assert (E : fold_left Qplus win 0 == 0)
      by (apply Hiff; split; [reflexivity | exact Hz]).
    rewrite E. field. lra.
Qed.

(** The formula on two non-negative averages is NaN exactly when both are
    zero. *)
Lemma rsi_of_rs_nan_iff (g l : Q) :
  0 <= g -> 0 <= l ->
  (rsi_of_rs (Fin g / Fin l)%F = NaN <-> g == 0 /\ l == 0).
Proof.
  intros Hg Hl. unfold rsi_of_rs. cbn [Fdiv].
  destruct (Qeq_bool l 0) eqn:El.
  - apply Qeq_bool_iff in El. unfold Finf_scale.
    destruct (g ?= 0) eqn:Eg.
    + apply Qeq_alt in Eg. split; [auto | reflexivity].
    + apply Qlt_alt in Eg. lra.
    + apply Qgt_alt in Eg. cbn. split; [discriminate | intros [E _]; lra].
  - assert (Hl0 : 0 < l).
    { destruct (Qlt_le_dec 0 l) as [L | L]; [exact L|].
      assert (l == 0) by lra. apply Qeq_bool_iff in H. congruence. }
    assert (Hq : 0 <= g / l) by (apply Qle_shift_div_l; lra).
    cbn [Fadd]. rewrite Qeq_bool_false by lra. cbn [Fsub Fopp Fadd].
    split; [discriminate | intros [_ E]; lra].
Qed.

Lemma nth_error_differences (cs : list Q) (c0 : Q) (j : nat) (p c : Q) :
  nth_error (c0 :: cs) j = Some p -> nth_error (c0 :: cs) (S j) = Some c ->
  nth_error (differences c0 cs) j = Some (c + - p).
Proof.
  revert c0 j. induction cs as [|x cs IH]; intros c0 j Hp Hc.
  - destruct j; discriminate.
  - destruct j as [|j].
    + cbn in Hp, Hc. injection Hp as <-. injection Hc as <-. reflexivity.
    + cbn [nth_error differences] in *. apply IH; assumption.
Qed.

Lemma gain_loss_zero_iff (d : Q) :
  gain_part d == 0 /\ loss_part d == 0 <-> d == 0.
Proof.
  unfold gain_part, loss_part.
  destruct (Qle_bool d 0) eqn:E1; destruct (Qle_bool 0 d) eqn:E2;
    cbn [negb]; try apply Qle_bool_iff in E1; try apply Qle_bool_iff in E2.
  - split; [intros _; lra | intros _; split; lra].
  - split; [intros [_ H]; lra | intros H; split; lra].
  - split; [intros [H _]; lra | intros H; split; lra].
  - exfalso. destruct (Qlt_le_dec 0 d) as [L | L].
    + assert (H : 0 <= d) by lra. apply Qle_bool_iff in H. congruence.
    + apply Qle_bool_iff in L. congruence.
Qed.

Lemma Forall_nth_error_iff {A : Type} (P : A -> Prop) (l : list A) :
  Forall P l <-> forall k x, nth_error l k = Some x -> P x.
Proof.
  rewrite Forall_forall. split.
  - intros H k x E. apply H. eapply nth_error_In. exact E.
  - intros H x Hin. apply In_nth_error in Hin as [k E]. eapply H. exact E.
Qed.

Lemma nth_error_window (w i : nat) (qs : list Q) (k : nat) :
  (w <= i + 1)%nat ->
  nth_error (firstn w (skipn (i + 1 - w) qs)) k
  = if (k <? w)%nat then nth_error qs (i + 1 - w + k) else None.
Proof.
  intros H. rewrite nth_error_firstn.
  destruct (k <? w)%nat; [apply nth_error_skipn | reflexivity].
Qed.

(** X12.  On a row from the 14th on the RSI is NaN exactly when the price
    did not move over the window: every close of the rows [i - 14] to [i]
    equals the one before it. *)
Theorem rsi_missing_iff_flat (sqrtQ : Q -> Q) (w20 w50 : nat)
    (bars : list Bar) (i : nat) :
  (13 <= i < length bars)%nat ->
  let df := get_data sqrtQ w20 w50 bars in
  nth_error (RSI df) i = Some NaN
  <-> (forall j p c,
         (i - 14 <= j < i)%nat ->
         nth_error (map snd bars) j = Some p ->
         nth_error (map snd bars) (S j) = Some c ->
         c == p).
Proof.
  intros Hi. cbn [get_data RSI]. rewrite close_of_fin.
  assert (Hlen : length (map snd bars) = length bars) by apply length_map.
  rewrite rsi_of_row by lia.
  replace (i + 1 <? 14)%nat with false by (symmetry; apply Nat.ltb_ge; lia).
  set (closes := map snd bars) in *.
  assert (Hg : 0 <= window_average 14 i (gains closes))
    by (apply window_average_nonneg; [lia | apply gains_nonneg]).
  assert (Hl : 0 <= window_average 14 i (losses closes))
    by (apply window_average_nonneg; [lia | apply losses_nonneg]).
  assert (Hnan :
            Some (rsi_of_rs (Fin (window_average 14 i (gains closes))
                             / Fin (window_average 14 i (losses closes)))%F)
            = Some NaN
            <-> window_average 14 i (gains closes) == 0
                /\ window_average 14 i (losses closes) == 0).
  { rewrite <- (rsi_of_rs_nan_iff _ _ Hg Hl). split; congruence. }
  rewrite Hnan.
  rewrite !window_average_zero_iff
    by (try lia; first [apply gains_nonneg | apply losses_nonneg]).
  rewrite !Forall_nth_error_iff.
  destruct closes as [|c0 cs] eqn:Ecl; [simpl in Hlen; lia|].
  cbn [gains losses]. split.
  - intros [HG HL] j p c Hj Hp Hc.
    pose proof (nth_error_differences cs c0 j p c Hp Hc) as Hd.
    assert (E1 : gain_part (c + - p) == 0).
    { apply (HG (S j - (i + 1 - 14))%nat).
      rewrite nth_error_window by lia.
      replace (S j - (i + 1 - 14) <? 14)%nat with true
        by (symmetry; apply Nat.ltb_lt; lia).
      replace (i + 1 - 14 + (S j - (i + 1 - 14)))%nat with (S j) by lia.
      cbn [nth_error]. rewrite nth_error_map, Hd. reflexivity. }
    assert (E2 : loss_part (c + - p) == 0).
    { apply (HL (S j - (i + 1 - 14))%nat).
      rewrite nth_error_window by lia.
      replace (S j - (i + 1 - 14) <? 14)%nat with true
        by (symmetry; apply Nat.ltb_lt; lia).
      replace (i + 1 - 14 + (S j - (i + 1 - 14)))%nat with (S j) by lia.
      cbn [nth_error]. rewrite nth_error_map, Hd. reflexivity. }
    assert (E : c + - p == 0) by (apply gain_loss_zero_iff; auto).
    lra.
  - intros Hflat.
    assert (Hrow : forall r d,
              (i + 1 - 14 <= S r <= i)%nat ->
              nth_error (differences c0 cs) r = Some d -> d == 0).
    { intros r d Hr Hd.
      assert (Hr' : (S r < length (c0 :: cs))%nat).
      { simpl. apply (f_equal (@length Q)) in Ecl. simpl in Ecl. simpl in Hlen.
        lia. }
      destruct (nth_error (c0 :: cs) r) as [p|] eqn:Ep;
        [|apply nth_error_None in Ep; lia].
      destruct (nth_error (c0 :: cs) (S r)) as [c|] eqn:Ec;
        [|apply nth_error_None in Ec; lia].
      rewrite (nth_error_differences cs c0 r p c Ep Ec) in Hd.
      injection Hd as <-.
      assert (c == p) by (apply (Hflat r p c); [lia | exact Ep | exact Ec]).
      lra. }
    split; intros k x Hx; rewrite nth_error_window in Hx by lia;
      destruct (k <? 14)%nat eqn:Ek; try discriminate;
      apply Nat.ltb_lt in Ek;
      destruct (i + 1 - 14 + k)%nat as [|r] eqn:Er.
    + cbn in Hx. injection Hx as <-. reflexivity.
    + cbn [nth_error] in Hx. rewrite nth_error_map in Hx.
      destruct (nth_error (differences c0 cs) r) as [d|] eqn:Ed;
        [|discriminate].
      cbn in Hx. injection Hx as <-.
      apply gain_loss_zero_iff. apply (Hrow r d); [lia | exact Ed].
    + cbn in Hx. injection Hx as <-. reflexivity.
    + cbn [nth_error] in Hx. rewrite nth_error_map in Hx.
      destruct (nth_error (differences c0 cs) r) as [d|] eqn:Ed;
        [|discriminate].
      cbn in Hx. injection Hx as <-.
      apply gain_loss_zero_iff. apply (Hrow r d); [lia | exact Ed].
Qed.

(** ** The shape of the portfolio frame *)

Section PortfolioShape.

Variable sqrtQ : Q -> Q.
Variables w20 w50 : nat.

Lemma portfolio_step_on_empty (p : PortfolioFrame) (item : list Bar * Q) :
  p_index p = [] ->
  portfolio_step sqrtQ w20 w50 (Some p) item
  = portfolio_step sqrtQ w20 w50 None item.
Proof.
  intros H. unfold portfolio_step, frame_empty. rewrite H. reflexivity.
Qed.

(** X13.  A first ticker without any bar leaves [portfolio_data] empty, and
    the loop starts again with the next ticker: the composite is the one of
    the remaining tickers. *)
Theorem portfolio_skips_empty_first (w : Q) (rest : list (list Bar * Q)) :
  rest <> [] ->
  portfolio_data sqrtQ w20 w50 (([], w) :: rest)
  = portfolio_data sqrtQ w20 w50 rest
  /\ portfolio_metrics sqrtQ w20 w50 (([], w) :: rest)
     = portfolio_metrics sqrtQ w20 w50 rest.
Proof.
  intros Hne.
  assert (E : portfolio_data sqrtQ w20 w50 (([], w) :: rest)
              = portfolio_data sqrtQ w20 w50 rest).
  { destruct rest as [|item rest']; [congruence|].
    unfold portfolio_data. cbn [fold_left].
    rewrite <- (portfolio_step_on_empty
                  {| p_index := []; p_Cumulative := []; p_Daily_Return := [] |}
                  item eq_refl).
    reflexivity. }
  split; [exact E|]. unfold portfolio_metrics. rewrite E. reflexivity.
Qed.

(** X14.  When the first ticker has bars, the portfolio view is computed
    and its index, its two columns and its drawdown have one row per bar of
    the first ticker, whatever the histories of the other tickers. *)
Theorem portfolio_frame_shape (bars1 : list Bar) (w1 : Q)
    (rest : list (list Bar * Q)) :
  bars1 <> [] ->
  exists m,
    portfolio_metrics sqrtQ w20 w50 ((bars1, w1) :: rest) = Some m
    /\ pm_index m = map fst bars1
    /\ length (pm_Daily_Return m) = length bars1
    /\ length (pm_Cumulative m) = length bars1
    /\ length (pm_drawdown m) = length bars1.
Proof.
  intros Hne. unfold portfolio_metrics, portfolio_data. cbn [fold_left].
  destruct (portfolio_step_first sqrtQ w20 w50 bars1 w1) as [p1 [E1 Hp1]].
  rewrite E1.
  assert (Hidx : map fst bars1 <> []).
  { destruct bars1; [congruence | discriminate]. }
  destruct (portfolio_loop sqrtQ w20 w50 (map fst bars1) rest p1 Hidx Hp1)
    as [p [E [[Hi [Hc Hd]] _]]].
  rewrite E. eexists; split; [reflexivity|].
  cbn [pm_index pm_Daily_Return pm_Cumulative pm_drawdown].
  rewrite length_map in Hc, Hd.
  unfold cummax. rewrite !length_zipWith, length_cummax_from.
  repeat split; auto; lia.
Qed.

End PortfolioShape.

(** ** The composite daily return over the same dates *)

Lemma nth_weighted_return (sqrtQ : Q -> Q) (w20 w50 : nat)
    (item : list Bar * Q) (i : nat) :
  nth i (weighted_return sqrtQ w20 w50 item) NaN
  = (nth i (Returns (get_data sqrtQ w20 w50 (fst item))) NaN
     * Fin (snd item))%F.
Proof.
  unfold weighted_return.
  change NaN with ((fun r => (r * Fin (snd item))%F) NaN) at 1.
  apply map_nth.
Qed.

(** X15.  For tickers that share the same distinct dates, the composite
    daily return of every row is the sum, taken in the order of the
    tickers, of each ticker's daily return of that row times its weight. *)
Theorem composite_daily_return_same_dates (sqrtQ : Q -> Q) (w20 w50 : nat)
    (first : list Bar * Q) (rest : list (list Bar * Q)) :
  fst first <> [] -> NoDup (map fst (fst first)) ->
  Forall (fun item => map fst (fst item) = map fst (fst first)) rest ->
  exists p,
    portfolio_data sqrtQ w20 w50 (first :: rest) = Some p
    /\ forall i,
         (i < length (fst first))%nat ->
         nth_error (p_Daily_Return p) i
         = Some (fold_left Fadd
                   (map (fun item =>
                           (nth i (Returns (get_data sqrtQ w20 w50 (fst item)))
                              NaN
                            * Fin (snd item))%F) rest)
                   (nth i (Returns (get_data sqrtQ w20 w50 (fst first))) NaN
                    * Fin (snd first))%F).
Proof.
  intros Hne Hnd Hall.
  destruct (portfolio_data_aligned sqrtQ w20 w50 first rest Hne Hnd Hall)
    as [p [E [_ [Hd _]]]].
  exists p. split; [exact E|]. intros i Hi. rewrite Hd.
  rewrite (nth_error_fold_zipWith Fadd
             (map (weighted_return sqrtQ w20 w50) rest)
             (weighted_return sqrtQ w20 w50 first) i
             (nth i (weighted_return sqrtQ w20 w50 first) NaN)).
  - rewrite map_map, nth_weighted_return. f_equal. f_equal.
    apply map_ext. intros item. apply nth_weighted_return.
  - apply nth_error_nth'. rewrite length_weighted_return. exact Hi.
  - rewrite Forall_forall in *. intros c Hc.
    apply in_map_iff in Hc as [item [<- Hin]].
    rewrite length_weighted_return.
    rewrite <- (length_map fst (fst item)), (Hall item Hin), length_map.
    exact Hi.
Qed.

(** ** The further properties at concrete series *)

Lemma sharpe_short_history_witness :
  std heron_sqrt (Returns (get_data heron_sqrt 20 50 two_bars)) = NaN
  /\ Sharpe (get_data heron_sqrt 20 50 two_bars) = NaN.
Proof.
  apply (sharpe_short_history heron_sqrt 20 50 two_bars).
  right. vm_compute. lia.
Defined.

Lemma rsi_monotone_closes_witness :
  exists r,
    nth_error (RSI (get_data heron_sqrt 20 50 rising_14_bars)) 13 = Some r
    /\ r =f= Fin 100.
Proof.
  apply (proj1 (rsi_monotone_closes heron_sqrt 20 50 rising_14_bars 13
                  ltac:(vm_compute; lia))).
  vm_compute. repeat (constructor; [reflexivity|]). constructor.
Defined.

Lemma max_drawdown_bounds_witness :
  exists m,
    max_drawdown (get_data heron_sqrt 20 50 five_bars) = Fin m
    /\ - (1) < m <= 0
    /\ (exists i,
          nth_error (Drawdown (get_data heron_sqrt 20 50 five_bars)) i
          = Some (Fin m))
    /\ (forall i d,
          nth_error (Drawdown (get_data heron_sqrt 20 50 five_bars)) i
          = Some (Fin d) -> m <= d).
Proof.
  apply (proj2 (max_drawdown_bounds heron_sqrt 20 50 five_bars
                  five_bars_positive)).
  vm_compute. lia.
Defined.

Lemma moving_average_within_closes_witness :
  forall_rows_between 100 107 (MA20 (get_data heron_sqrt 3 50 five_bars))
  /\ forall_rows_between 100 107 (MA50 (get_data heron_sqrt 3 50 five_bars)).
Proof.
  apply (moving_average_within_closes heron_sqrt 3 50 five_bars 100 107);
    try lia.
  repeat (constructor; [split; discriminate|]). constructor.
Defined.

Lemma default_weights_accepted_witness :
  exists weights,
    default_weights [growing_bars; five_bars; flat_bars] = Some weights
    /\ length weights = length [growing_bars; five_bars; flat_bars]
    /\ (exists q,
          Fvalue (sum_compensated weights) = Fin q
          /\ Qabs (q - 1) <= 1 # 4503599627370496)
    /\ exists m,
         portfolio_metrics_F heron_sqrt 20 50
           (combine [growing_bars; five_bars; flat_bars]
              (map Fvalue weights)) = Some m
         /\ portfolio_section heron_sqrt sum_compensated 20 50 true
              [growing_bars; five_bars; flat_bars] weights
            = ([], Shown m).
Proof.
  apply (default_weights_accepted heron_sqrt sum_compensated 20 50
           [growing_bars; five_bars; flat_bars]).
  - right. reflexivity.
  - discriminate.
  - simpl. lia.
Defined.

Lemma growing_bars_positive : positive_closes growing_bars.
Proof. repeat (constructor; [reflexivity|]). constructor. Qed.

Lemma gapped_bars_positive : positive_closes gapped_bars.
Proof. repeat (constructor; [reflexivity|]). constructor. Qed.

Lemma long_only_portfolio_witness :
  exists m,
    portfolio_metrics heron_sqrt 20 50
      [(growing_bars, 1 # 2); (gapped_bars, 1 # 2)] = Some m
    /\ Forall nan_or_positive (pm_Cumulative m)
    /\ Forall (fun x => x = NaN \/ exists d, x = Fin d /\ - (1) < d <= 0)
         (pm_drawdown m)
    /\ (portfolio_max_drawdown m = NaN
        \/ exists d, portfolio_max_drawdown m = Fin d /\ - (1) < d <= 0).
Proof.
  destruct (portfolio_metrics heron_sqrt 20 50
              [(growing_bars, 1 # 2); (gapped_bars, 1 # 2)]) as [m|] eqn:E.
  - exists m. split; [reflexivity|].
    apply (long_only_portfolio heron_sqrt 20 50
             [(growing_bars, 1 # 2); (gapped_bars, 1 # 2)] m); [|exact E].
    constructor; [split; [exact growing_bars_positive | split; discriminate]|].
    constructor; [split; [exact gapped_bars_positive | split; discriminate]|].
    constructor.
  - exfalso. vm_compute in E. discriminate.
Defined.

Lemma rsi_missing_iff_flat_witness :
  nth_error (RSI (get_data heron_sqrt 20 50 flat_14_bars)) 13 = Some NaN.
Proof.
  apply (proj2 (rsi_missing_iff_flat heron_sqrt 20 50 flat_14_bars 13
                  ltac:(vm_compute; lia))).
  intros j p c Hj Hp Hc.
  do 13 (destruct j as [|j];
         [cbn in Hp, Hc; injection Hp as <-; injection Hc as <-; reflexivity|]).
  lia.
Defined.

Lemma composite_daily_return_same_dates_witness :
  exists p,
    portfolio_data heron_sqrt 20 50
      [(growing_bars, 1 # 2); (growing_bars, 1 # 2)] = Some p
    /\ forall i,
         (i < length growing_bars)%nat ->
         nth_error (p_Daily_Return p) i
         = Some (fold_left Fadd
                   (map (fun item =>
                           (nth i
                              (Returns (get_data heron_sqrt 20 50 (fst item)))
                              NaN
                            * Fin (snd item))%F) [(growing_bars, 1 # 2)])
                   (nth i (Returns (get_data heron_sqrt 20 50 growing_bars))
                      NaN
                    * Fin (1 # 2))%F).
Proof.
  apply (composite_daily_return_same_dates heron_sqrt 20 50
           (growing_bars, 1 # 2) [(growing_bars, 1 # 2)]).
  - discriminate.
  - vm_compute.
    repeat (constructor;
            [intros H; repeat destruct H as [H | H];
             try discriminate H; exact H|]).
    constructor.
  - constructor; [reflexivity | constructor].
Defined.

Lemma portfolio_skips_empty_first_witness :
  portfolio_data heron_sqrt 20 50 [([], 1 # 2); (growing_bars, 1 # 2)]
  = portfolio_data heron_sqrt 20 50 [(growing_bars, 1 # 2)]
  /\ portfolio_metrics heron_sqrt 20 50 [([], 1 # 2); (growing_bars, 1 # 2)]
     = portfolio_metrics heron_sqrt 20 50 [(growing_bars, 1 # 2)].
Proof.
  apply (portfolio_skips_empty_first heron_sqrt 20 50 (1 # 2)
           [(growing_bars, 1 # 2)]).
  discriminate.
Defined.

Lemma portfolio_frame_shape_witness :
  exists m,
    portfolio_metrics heron_sqrt 20 50
      [(growing_bars, 1 # 2); (gapped_bars, 1 # 2)] = Some m
    /\ pm_index m = map fst growing_bars
    /\ length (pm_Daily_Return m) = length growing_bars
    /\ length (pm_Cumulative m) = length growing_bars
    /\ length (pm_drawdown m) = length growing_bars.
Proof.
  apply (portfolio_frame_shape heron_sqrt 20 50 growing_bars (1 # 2)
           [(gapped_bars, 1 # 2)]).
  discriminate.
Defined.
